(** * go-shopify: pagination links, product and payout services

    A shallow embedding of [products.go] and [payouts.go] of the
    go-shopify client, together with the part of Go's [regexp] semantics
    that the package-level pattern [linkRegex] relies on. *)

From Stdlib Require Import Ascii String.
From Stdlib Require Decimal DecimalZ DecimalPos.
From Stdlib Require Import List ZArith Lia Bool Arith Sorted.
Import ListNotations.

Set Implicit Arguments.

(** Go strings are byte sequences. *)
Definition bytes := list ascii.

Definition B (s : string) : bytes := list_ascii_of_string s.

(** The double quote, written by its code point. *)
Definition dquote : ascii := ascii_of_nat 34.

(** ** Regular expressions (the fragment of Go's [regexp] syntax that
       [linkRegex] uses), with leftmost-first (Perl-like) matching. *)
Module Regexp.

Inductive regex : Type :=
| Eps                              (* empty pattern *)
| Char (c : ascii)                 (* a literal byte *)
| NoneOf (cs : list ascii)         (* negated class [^...] *)
| Cat (r1 r2 : regex)              (* r1 r2 *)
| Alt (r1 r2 : regex)              (* r1|r2, r1 preferred *)
| Star (r : regex)                 (* r*, greedy *)
| Plus (r : regex)                 (* r+, greedy *)
| Group (n : nat) (r : regex)      (* n-th capturing group *)
| BeginText                        (* ^ without the m flag *)
| EndText.                         (* $ without the m flag *)

(** A literal string is the concatenation of its bytes. *)
Fixpoint lits (w : bytes) : regex :=
  match w with
  | [] => Eps
  | c :: w' => Cat (Char c) (lits w')
  end.

(** Matcher state: offset in the text, remaining text, captures made so
    far (most recent first). *)
Record mstate : Type := MState {
  pos : nat;
  rest : bytes;
  caps : list (nat * bytes)
}.

Definition single (p : ascii -> bool) (st : mstate) : list mstate :=
  match rest st with
  | c :: t => if p c then [MState (S (pos st)) t (caps st)] else []
  | [] => []
  end.

Definition none_of (cs : list ascii) (a : ascii) : bool :=
  negb (existsb (Ascii.eqb a) cs).

(** Greedy iteration: one more round of [step] first (it has to consume
    input), the empty iteration last.  The fuel bounds the rounds by the
    length of the remaining text. *)
Fixpoint star_loop (step : mstate -> list mstate) (fuel : nat)
         (st : mstate) : list mstate :=
  match fuel with
  | O => [st]
  | S fuel' =>
      flat_map (fun st' =>
                  if length (rest st') <? length (rest st)
                  then star_loop step fuel' st' else [])
               (step st)
      ++ [st]
  end.

Definition star (step : mstate -> list mstate) (st : mstate) : list mstate :=
  star_loop step (S (length (rest st))) st.

Definition capture (n : nat) (st st' : mstate) : mstate :=
  MState (pos st') (rest st')
         ((n, firstn (pos st' - pos st) (rest st)) :: caps st').

(** All ways of matching [r] at [st], in the order of preference of a
    backtracking matcher. *)
Fixpoint rmatch (r : regex) (st : mstate) : list mstate :=
  match r with
  | Eps => [st]
  | Char c => single (Ascii.eqb c) st
  | NoneOf cs => single (none_of cs) st
  | Cat r1 r2 => flat_map (rmatch r2) (rmatch r1 st)
  | Alt r1 r2 => rmatch r1 st ++ rmatch r2 st
  | Star r' => star (rmatch r') st
  | Plus r' => flat_map (star (rmatch r')) (rmatch r' st)
  | Group n r' => map (capture n st) (rmatch r' st)
  | BeginText => if pos st =? 0 then [st] else []
  | EndText => match rest st with [] => [st] | _ :: _ => [] end
  end.

(** Number of capturing groups (Regexp.NumSubexp). *)
Fixpoint num_subexp (r : regex) : nat :=
  match r with
  | Cat r1 r2 | Alt r1 r2 => Nat.max (num_subexp r1) (num_subexp r2)
  | Star r' | Plus r' => num_subexp r'
  | Group n r' => Nat.max n (num_subexp r')
  | _ => 0
  end.

Fixpoint lookup_cap (n : nat) (cs : list (nat * bytes)) : bytes :=
  match cs with
  | [] => []
  | (m, w) :: cs' => if m =? n then w else lookup_cap n cs'
  end.

(** Leftmost match: the first start offset at which the pattern matches,
    with the preferred match there. *)
Fixpoint search (r : regex) (start : nat) (text : bytes)
  : option (nat * bytes * mstate) :=
  match rmatch r (MState start text []) with
  | st' :: _ => Some (start, text, st')
  | [] =>
      match text with
      | [] => None
      | _ :: text' => search r (S start) text'
      end
  end.

(** Regexp.FindStringSubmatch: [None] is Go's nil slice; otherwise the
    whole match followed by the text of each group. *)
Definition FindStringSubmatch (r : regex) (text : bytes)
  : option (list bytes) :=
  match search r 0 text with
  | None => None
  | Some (start, from, st') =>
      Some (firstn (pos st' - start) from
            :: map (fun n => lookup_cap n (caps st'))
                   (seq 1 (num_subexp r)))
  end.

End Regexp.

Import Regexp.

(** ** Go standard library helpers used by the package *)

Fixpoint bytes_eqb (a b : bytes) : bool :=
  match a, b with
  | [], [] => true
  | x :: a', y :: b' => Ascii.eqb x y && bytes_eqb a' b'
  | _, _ => false
  end.

(** The digits of an unsigned decimal number. *)
Fixpoint bytes_of_uint (u : Decimal.uint) : bytes :=
  match u with
  | Decimal.Nil => []
  | Decimal.D0 u' => "0"%char :: bytes_of_uint u'
  | Decimal.D1 u' => "1"%char :: bytes_of_uint u'
  | Decimal.D2 u' => "2"%char :: bytes_of_uint u'
  | Decimal.D3 u' => "3"%char :: bytes_of_uint u'
  | Decimal.D4 u' => "4"%char :: bytes_of_uint u'
  | Decimal.D5 u' => "5"%char :: bytes_of_uint u'
  | Decimal.D6 u' => "6"%char :: bytes_of_uint u'
  | Decimal.D7 u' => "7"%char :: bytes_of_uint u'
  | Decimal.D8 u' => "8"%char :: bytes_of_uint u'
  | Decimal.D9 u' => "9"%char :: bytes_of_uint u'
  end.

(** The verb [%d] on an integer (also [strconv.Itoa]). *)
Definition itoa (z : Z) : bytes :=
  match Z.to_int z with
  | Decimal.Pos u => bytes_of_uint u
  | Decimal.Neg u => "-"%char :: bytes_of_uint u
  end.

Inductive operand : Type :=
| OpS (s : bytes)
| OpD (d : Z).

(** [fmt.Sprintf] for the verbs [%s] and [%d], the only ones the package
    uses; a verb without a fitting operand is copied as it stands. *)
Fixpoint Sprintf (format : bytes) (args : list operand) {struct format}
  : bytes :=
  match format with
  | [] => []
  | c :: f1 =>
      match f1 with
      | v :: f2 =>
          if Ascii.eqb c "%" then
            match args with
            | OpS s :: args' =>
                if Ascii.eqb v "s" then s ++ Sprintf f2 args'
                else c :: Sprintf f1 args
            | OpD d :: args' =>
                if Ascii.eqb v "d" then itoa d ++ Sprintf f2 args'
                else c :: Sprintf f1 args
            | [] => c :: Sprintf f1 args
            end
          else c :: Sprintf f1 args
      | [] => [c]
      end
  end.

(** [strings.Split s sep] for a one-byte separator: never empty, the
    pieces hold no separator. *)
Fixpoint split_on (sep : ascii) (s : bytes) : list bytes :=
  match s with
  | [] => [[]]
  | c :: t =>
      if Ascii.eqb c sep then [] :: split_on sep t
      else match split_on sep t with
           | h :: r => (c :: h) :: r
           | [] => [[c]]
           end
  end.

(** [strings.Cut s sep]: the text before and after the first separator;
    all of [s] and nothing when there is none. *)
Fixpoint cut (sep : ascii) (s : bytes) : bytes * bytes :=
  match s with
  | [] => ([], [])
  | c :: t =>
      if Ascii.eqb c sep then ([], t)
      else let (a, b) := cut sep t in (c :: a, b)
  end.

Fixpoint join (sep : ascii) (l : list bytes) : bytes :=
  match l with
  | [] => []
  | [x] => x
  | x :: l' => x ++ sep :: join sep l'
  end.

(** [strconv.Atoi]: an optional sign and at least one decimal digit, in
    the range of a 64-bit [int]; [None] is a non-nil error. *)
Definition digit_of (c : ascii) : option (Decimal.uint -> Decimal.uint) :=
  if Ascii.eqb c "0" then Some Decimal.D0
  else if Ascii.eqb c "1" then Some Decimal.D1
  else if Ascii.eqb c "2" then Some Decimal.D2
  else if Ascii.eqb c "3" then Some Decimal.D3
  else if Ascii.eqb c "4" then Some Decimal.D4
  else if Ascii.eqb c "5" then Some Decimal.D5
  else if Ascii.eqb c "6" then Some Decimal.D6
  else if Ascii.eqb c "7" then Some Decimal.D7
  else if Ascii.eqb c "8" then Some Decimal.D8
  else if Ascii.eqb c "9" then Some Decimal.D9
  else None.

Fixpoint uint_of_bytes (s : bytes) : option Decimal.uint :=
  match s with
  | [] => Some Decimal.Nil
  | c :: t =>
      match digit_of c, uint_of_bytes t with
      | Some d, Some u => Some (d u)
      | _, _ => None
      end
  end.

Definition min_int : Z := - 2 ^ 63.
Definition max_int : Z := 2 ^ 63 - 1.

Definition in_int (z : Z) : bool := (min_int <=? z)%Z && (z <=? max_int)%Z.

Definition Atoi (s : bytes) : option Z :=
  let '(neg, ds) :=
    match s with
    | c :: t =>
        if Ascii.eqb c "-" then (true, t)
        else if Ascii.eqb c "+" then (false, t)
        else (false, s)
    | [] => (false, s)
    end in
  match ds with
  | [] => None
  | _ :: _ =>
      match uint_of_bytes ds with
      | Some u =>
          let z := if neg then (- Z.of_uint u)%Z else Z.of_uint u in
          if in_int z then Some z else None
      | None => None
      end
  end.

(** Query strings ([net/url]): percent-decoding with [+] for a space. *)
Definition unhex (c : ascii) : option nat :=
  let n := nat_of_ascii c in
  if (48 <=? n) && (n <=? 57) then Some (n - 48)
  else if (97 <=? n) && (n <=? 102) then Some (n - 87)
  else if (65 <=? n) && (n <=? 70) then Some (n - 55)
  else None.

Fixpoint unescape (s : bytes) : option bytes :=
  match s with
  | [] => Some []
  | c :: t =>
      if Ascii.eqb c "%" then
        match t with
        | h :: t1 =>
            match t1 with
            | l :: t2 =>
                match unhex h, unhex l with
                | Some a, Some b =>
                    option_map (cons (ascii_of_nat (16 * a + b))) (unescape t2)
                | _, _ => None
                end
            | [] => None
            end
        | [] => None
        end
      else if Ascii.eqb c "+" then option_map (cons " "%char) (unescape t)
      else option_map (cons c) (unescape t)
  end.

(** Bytes that [url.QueryEscape] leaves alone: letters, digits and
    [-], [_], [.], [~]. *)
Definition unreserved (c : ascii) : bool :=
  let n := nat_of_ascii c in
  ((48 <=? n) && (n <=? 57)) || ((65 <=? n) && (n <=? 90))
  || ((97 <=? n) && (n <=? 122))
  || existsb (Ascii.eqb c) ["-"%char; "_"%char; "."%char; "~"%char].

Definition hexdigit (n : nat) : ascii := nth n (B "0123456789ABCDEF") "0"%char.

Definition escape_byte (c : ascii) : bytes :=
  if unreserved c then [c]
  else if Ascii.eqb c " " then ["+"%char]
  else ["%"%char; hexdigit (nat_of_ascii c / 16);
        hexdigit (nat_of_ascii c mod 16)].

Definition escape (s : bytes) : bytes := flat_map escape_byte s.

(** [url.ParseQuery]: the pairs of an [&]-separated query, in order;
    empty pieces are skipped; [None] on a piece that holds a semicolon
    and on a bad percent-escape. *)
Fixpoint parse_pairs (segs : list bytes) : option (list (bytes * bytes)) :=
  match segs with
  | [] => Some []
  | seg :: segs' =>
      if existsb (Ascii.eqb ";") seg then None
      else
        match seg with
        | [] => parse_pairs segs'
        | _ :: _ =>
            let (k, v) := cut "=" seg in
            match unescape k, unescape v, parse_pairs segs' with
            | Some k', Some v', Some ps => Some ((k', v') :: ps)
            | _, _, _ => None
            end
        end
  end.

Definition parse_query (q : bytes) : option (list (bytes * bytes)) :=
  parse_pairs (split_on "&" q).

(** [url.Values.Get]: the first value of a key, empty when absent. *)
Fixpoint get (key : bytes) (ps : list (bytes * bytes)) : bytes :=
  match ps with
  | [] => []
  | (k, v) :: ps' => if bytes_eqb k key then v else get key ps'
  end.

(** The pairs written one after the other: escaped key, [=], escaped
    value, joined by [&]. *)
Definition encode_pairs (ps : list (bytes * bytes)) : bytes :=
  join "&" (map (fun kv => escape (fst kv) ++ "="%char :: escape (snd kv)) ps).

(** The order of Go strings: byte by byte. *)
Fixpoint bytes_leb (a b : bytes) : bool :=
  match a, b with
  | [], _ => true
  | _ :: _, [] => false
  | x :: a', y :: b' =>
      if nat_of_ascii x <? nat_of_ascii y then true
      else if nat_of_ascii y <? nat_of_ascii x then false
      else bytes_leb a' b'
  end.

(** Sorting pairs by key; pairs of one key keep their order. *)
Fixpoint insert_by_key (kv : bytes * bytes) (l : list (bytes * bytes))
  : list (bytes * bytes) :=
  match l with
  | [] => [kv]
  | x :: l' =>
      if bytes_leb (fst kv) (fst x) then kv :: x :: l'
      else x :: insert_by_key kv l'
  end.

Fixpoint sort_by_key (l : list (bytes * bytes)) : list (bytes * bytes) :=
  match l with
  | [] => []
  | kv :: l' => insert_by_key kv (sort_by_key l')
  end.

(** [url.Values.Encode]: the pairs in the order of their keys, the values
    of one key in their own order. *)
Definition encode_values (ps : list (bytes * bytes)) : bytes :=
  encode_pairs (sort_by_key ps).

(** The query of a URL: what follows the first [?], the fragment after
    [#] removed first. *)
Definition raw_query (url : bytes) : bytes :=
  snd (cut "?" (fst (cut "#" url))).

(** ** The pattern of products.go *)

(** [linkRegex = regexp.MustCompile(`^ *<([^>]+)>; rel="(previous|next)" *$`)] *)
Definition linkRegex : regex :=
  Cat BeginText
  (Cat (Star (Char " "))
  (Cat (Char "<")
  (Cat (Group 1 (Plus (NoneOf [">"%char])))
  (Cat (lits (B ">; rel=" ++ [dquote]))
  (Cat (Group 2 (Alt (lits (B "previous")) (lits (B "next"))))
  (Cat (Char dquote)
  (Cat (Star (Char " "))
       EndText))))))).

(** ** Pagination ([Pagination] is products.go, lines 93-97) *)

(** Modelled from the spec: [ListOptions], the cursor type that
    [Pagination] points to, is declared outside the two source files.
    Section 4.1, step 4 of the specification: the cursor token
    [page_info], the [limit], and any other query parameters present (in
    the order of the query). *)
Record ListOptions : Type := {
  PageInfo : bytes;
  Limit : Z;
  Params : list (bytes * bytes)
}.

(** Pagination of results; [None] is a nil pointer. *)
Record Pagination : Type := {
  NextPageOptions : option ListOptions;
  PreviousPageOptions : option ListOptions
}.

Definition is_cursor_key (k : bytes) : bool :=
  bytes_eqb k (B "page_info") || bytes_eqb k (B "limit").

(** Modelled from the spec: the cursor of a query string (section 4.1,
    step 4).  [page_info] and [limit] are read with [get]; an absent or
    empty [limit] is the zero value; a query that does not parse, or a
    [limit] that is not an integer, makes the URL malformed ([None]). *)
Definition cursor_of_query (q : bytes) : option ListOptions :=
  match parse_query q with
  | None => None
  | Some ps =>
      let l := get (B "limit") ps in
      match (match l with [] => Some 0%Z | _ :: _ => Atoi l end) with
      | None => None
      | Some n =>
          Some {| PageInfo := get (B "page_info") ps;
                  Limit := n;
                  Params := filter (fun kv => negb (is_cursor_key (fst kv))) ps |}
      end
  end.

(** Modelled from the spec: the cursor of a captured URL is the cursor of
    its query string. *)
Definition parse_cursor (url : bytes) : option ListOptions :=
  cursor_of_query (raw_query url).

(** A parameter that holds a value. *)
Definition has_value (kv : bytes * bytes) : bool :=
  match snd kv with [] => false | _ :: _ => true end.

(** Modelled from the spec: the fields of a cursor that go into a query
    string (section 4.2, step 1): a field contributes only if it holds a
    non-default value, so an empty [page_info], a zero [limit] and the
    other parameters without a value are omitted. *)
Definition cursor_pairs (c : ListOptions) : list (bytes * bytes) :=
  (match PageInfo c with [] => [] | _ :: _ => [(B "page_info", PageInfo c)] end)
  ++ (if (Limit c =? 0)%Z then [] else [(B "limit", itoa (Limit c))])
  ++ filter has_value (Params c).

(** Modelled from the spec: the query string of a cursor (section 6,
    Output; section 4.2, step 1), written as [url.Values.Encode] writes
    the fields of an options object.  The serialiser of the protocol,
    [query_of], is declared outside the two source files and takes any
    options object; this is what section 4.2 has it write for the fields
    of a cursor. *)
Definition encode_cursor (c : ListOptions) : bytes :=
  encode_values (cursor_pairs c).

(** The cursor as a query string carries it: the other parameters that
    hold a value, in the order of their keys. *)
Definition canonical (c : ListOptions) : ListOptions :=
  {| PageInfo := PageInfo c;
     Limit := Limit c;
     Params := sort_by_key (filter has_value (Params c)) |}.

(** Modelled from the spec: one entry of the Link header (section 4.1,
    steps 2 to 4).  An entry that [linkRegex] does not match, or whose URL
    is malformed, yields nothing. *)
Definition entry_cursor (entry : bytes) : option (bytes * ListOptions) :=
  match FindStringSubmatch linkRegex entry with
  | Some [_; url; rel] =>
      match parse_cursor url with
      | Some c => Some (rel, c)
      | None => None
      end
  | _ => None
  end.

(** The Pagination without cursors. *)
Definition empty_pagination : Pagination :=
  {| NextPageOptions := None; PreviousPageOptions := None |}.

(** Modelled from the spec: the cursor is stored under its relation name
    (section 4.1, step 4); a later entry of the same relation replaces an
    earlier one (section 4.1, edge cases). *)
Definition add_entry (p : Pagination) (entry : bytes) : Pagination :=
  match entry_cursor entry with
  | Some (rel, c) =>
      if bytes_eqb rel (B "next")
      then {| NextPageOptions := Some c;
              PreviousPageOptions := PreviousPageOptions p |}
      else if bytes_eqb rel (B "previous")
      then {| NextPageOptions := NextPageOptions p;
              PreviousPageOptions := Some c |}
      else p
  | None => p
  end.

(** Modelled from the spec: the Link header parser (section 4.1) is not
    in the two source files.  The header is split on commas, every entry
    is matched against [linkRegex], entries that fail are skipped; the
    parser has no error result. *)
Definition extractPagination (linkHeader : bytes) : Pagination :=
  match linkHeader with
  | [] => empty_pagination
  | _ :: _ => fold_left add_entry (split_on "," linkHeader) empty_pagination
  end.

(** Modelled from the spec: the error kinds of section 7. *)
Inductive Err : Type :=
| TransportError (msg : bytes)
| APIError (status : Z) (body : bytes)
| DecodeError (msg : bytes).

(** A Go [error]: [None] is nil. *)
Definition error := option Err.

(** A Go slice: [None] is the nil slice. *)
Definition slice (T : Type) := option (list T).

(** Modelled from the spec: what the HTTP collaborator returns (section
    6): status, headers and body. *)
Record Response : Type := {
  Status : Z;
  Header : list (bytes * bytes);
  Body : bytes
}.

(** ** Types declared outside the two source files

    [time.Time], [decimal.Decimal], [OnlyDate], [Variant], [Image] and
    [Metafield] are only named by the sources; [Any] stands for the values
    passed as [interface{}] options, [ClientRef] for [*Client]. *)
Class Externals : Type := {
  time_Time : Type;
  decimal_Decimal : Type;
  OnlyDate : Type;
  Variant : Type;
  Image : Type;
  Metafield : Type;
  Any : Type;
  ClientRef : Type;
  (** Modelled from the spec: the query string of an options object
      (section 4.2, step 1). *)
  query_of : Any -> bytes
}.

(** Decoding a JSON body into a value of type [R] ([json.Unmarshal] into
    the [resource interface{}] argument); [None] is a decoding error. *)
Class JSON (R : Type) : Type := unmarshal : bytes -> R -> option R.

Section Shopify.

Context {ext : Externals}.

(** *** products.go *)

Definition productsBasePath : bytes := B "products".
Definition productsResourceName : bytes := B "products".

(** The options provided by Shopify *)
Record ProductOption : Type := {
  ProductOption_ID : Z;
  ProductOption_ProductID : Z;
  ProductOption_Name : bytes;
  ProductOption_Position : Z;
  ProductOption_Values : slice bytes
}.

(** Product represents a Shopify product *)
Record Product : Type := {
  Product_ID : Z;
  Product_Title : bytes;
  Product_BodyHTML : bytes;
  Product_Vendor : bytes;
  Product_ProductType : bytes;
  Product_Handle : bytes;
  Product_CreatedAt : option time_Time;
  Product_UpdatedAt : option time_Time;
  Product_PublishedAt : option time_Time;
  Product_PublishedScope : bytes;
  Product_Tags : bytes;
  Product_Status : bytes;
  Product_Options : slice ProductOption;
  Product_Variants : slice Variant;
  Product_Image : Image;
  Product_Images : slice Image;
  Product_TemplateSuffix : bytes;
  Product_MetafieldsGlobalTitleTag : bytes;
  Product_MetafieldsGlobalDescriptionTag : bytes;
  Product_Metafields : slice Metafield;
  Product_AdminGraphqlAPIID : bytes
}.

Record ProductListOptions : Type := {
  PLO_ListOptions : ListOptions;
  PLO_CollectionID : Z;
  PLO_ProductType : bytes;
  PLO_Vendor : bytes;
  PLO_Handle : bytes;
  PLO_PublishedAtMin : time_Time;
  PLO_PublishedAtMax : time_Time;
  PLO_PublishedStatus : bytes;
  PLO_PresentmentCurrencies : bytes
}.

(** Represents the result from the products/X.json endpoint *)
Record ProductResource : Type := { ProductResource_Product : option Product }.

(** Represents the result from the products.json endpoint *)
Record ProductsResource : Type := { Products : slice Product }.

(** ProductServiceOp handles communication with the product related
    methods of the Shopify API. *)
Record ProductServiceOp : Type := { product_client : ClientRef }.

(** [MetafieldServiceOp] as the composite literals of products.go
    build it. *)
Record MetafieldServiceOp : Type := {
  metafield_client : ClientRef;
  metafield_resource : bytes;
  metafield_resourceID : Z
}.

(** *** payouts.go *)

Definition payoutsBasePath : bytes := B "shopify_payments/payouts".
Definition payoutTransactionsBasePath : bytes :=
  B "shopify_payments/balance/transactions".

Definition PayoutStatus : Type := bytes.

Definition PayoutStatusScheduled : PayoutStatus := B "scheduled".
Definition PayoutStatusInTransit : PayoutStatus := B "in_transit".
Definition PayoutStatusPaid : PayoutStatus := B "paid".
Definition PayoutStatusFailed : PayoutStatus := B "failed".
Definition PayoutStatusCancelled : PayoutStatus := B "canceled".

(** PayoutsServiceOp handles communication with the payout related
    methods of the Shopify API. *)
Record PayoutsServiceOp : Type := { payouts_client : ClientRef }.

(** A struct for all available payout list options *)
Record PayoutsListOptions : Type := {
  PyLO_PageInfo : bytes;
  PyLO_Limit : Z;
  PyLO_Fields : bytes;
  PyLO_LastId : Z;
  PyLO_SinceId : Z;
  PyLO_Status : PayoutStatus;
  PyLO_DateMin : option OnlyDate;
  PyLO_DateMax : option OnlyDate;
  PyLO_Date : option OnlyDate
}.

(** Payout represents a Shopify payout *)
Record Payout : Type := {
  Payout_Id : Z;
  Payout_Date : OnlyDate;
  Payout_Currency : bytes;
  Payout_Amount : decimal_Decimal;
  Payout_Status : PayoutStatus
}.

Record PayoutTransaction : Type := {
  PT_ID : Z;
  PT_Type : bytes;
  PT_Test : bool;
  PT_PayoutID : Z;
  PT_PayoutStatus : bytes;
  PT_Currency : bytes;
  PT_Amount : decimal_Decimal;
  PT_Fee : decimal_Decimal;
  PT_Net : decimal_Decimal;
  PT_SourceID : Z;
  PT_SourceType : bytes;
  PT_SourceOrderID : Z;
  PT_SourceOrderTransactionID : Z;
  PT_ProcessedAt : time_Time
}.

(** Represents the result from the payouts/X.json endpoint *)
Record PayoutResource : Type := { PayoutResource_Payout : option Payout }.

(** Represents the result from the payouts.json endpoint *)
Record PayoutsResource : Type := { Payouts : slice Payout }.

Record PayoutTransactionsResource : Type := {
  Transactions : slice PayoutTransaction
}.

Context {json_product : JSON ProductResource}
        {json_products : JSON ProductsResource}
        {json_payout : JSON PayoutResource}
        {json_payouts : JSON PayoutsResource}
        {json_transactions : JSON PayoutTransactionsResource}.

(** *** Calls that leave the two source files

    The methods of [*Client] and of [*MetafieldServiceOp] are defined
    elsewhere in the package.  A call is an event that carries the
    receiver and the arguments; its answer is what the callee returns,
    together with the final value of the [resource] it was handed a
    pointer to. *)
Inductive CallE : Type -> Type :=
| Client_ListWithPagination (c : ClientRef) (R : Type) (J : JSON R)
    (path : bytes) (resource : R) (options : option Any)
  : CallE (R * option Pagination * error)
| Client_Count (c : ClientRef) (path : bytes) (options : option Any)
  : CallE (Z * error)
| Client_Get (c : ClientRef) (R : Type) (J : JSON R)
    (path : bytes) (resource : R) (options : option Any)
  : CallE (R * error)
| Client_Post (c : ClientRef) (D R : Type) (J : JSON R)
    (path : bytes) (data : D) (resource : R)
  : CallE (R * error)
| Client_Put (c : ClientRef) (D R : Type) (J : JSON R)
    (path : bytes) (data : D) (resource : R)
  : CallE (R * error)
| Client_Delete (c : ClientRef) (path : bytes)
  : CallE error
| Metafield_List (m : MetafieldServiceOp) (options : option Any)
  : CallE (slice Metafield * error)
| Metafield_Count (m : MetafieldServiceOp) (options : option Any)
  : CallE (Z * error)
| Metafield_Get (m : MetafieldServiceOp) (metafieldID : Z)
    (options : option Any)
  : CallE (option Metafield * error)
| Metafield_Create (m : MetafieldServiceOp) (metafield : Metafield)
  : CallE (option Metafield * error)
| Metafield_Update (m : MetafieldServiceOp) (metafield : Metafield)
  : CallE (option Metafield * error)
| Metafield_Delete (m : MetafieldServiceOp) (metafieldID : Z)
  : CallE error.

(** Programs over such calls. *)
Inductive Prog (A : Type) : Type :=
| Ret (a : A)
| Call (T : Type) (e : CallE T) (k : T -> Prog A).

Arguments Ret {A} a.
Arguments Call {A T} e k.

Fixpoint pbind (A C : Type) (p : Prog A) (f : A -> Prog C) : Prog C :=
  match p with
  | Ret a => f a
  | Call e k => Call e (fun t => pbind (k t) f)
  end.

(** A method with receiver type [S]: it may issue calls and may leave
    the receiver changed. *)
Definition Method (S A : Type) : Type := S -> Prog (A * S).

Definition ret (S A : Type) (a : A) : Method S A := fun s => Ret (a, s).

Definition bind (S A C : Type) (m : Method S A) (f : A -> Method S C)
  : Method S C :=
  fun s => pbind (m s) (fun r => f (fst r) (snd r)).

(** Reading a field of the receiver. *)
Definition field (S A : Type) (proj : S -> A) : Method S A :=
  fun s => Ret (proj s, s).

Definition call (S T : Type) (e : CallE T) : Method S T :=
  fun s => Call e (fun t => Ret (t, s)).

(** The calls issued by a run, oldest first. *)
Definition call_log : Type := list { T : Type & CallE T }.

(** Whoever answers the calls: the rest of the package and, behind it,
    the remote API, with a state [W] of its own. *)
Definition handler (W : Type) : Type := forall T, CallE T -> W -> T * W.

Fixpoint run (W A : Type) (h : handler W) (p : Prog A) (w : W)
  : A * W * call_log :=
  match p with
  | Ret a => (a, w, [])
  | Call e k =>
      let (t, w') := h _ e w in
      let '(a, w'', log) := run h (k t) w' in
      (a, w'', existT _ _ e :: log)
  end.

Notation "x <- m ;; f" := (bind m (fun x => f))
  (at level 61, m at next level, right associativity).
Notation "' pat <- m ;; f" :=
  (bind m (fun x => match x with pat => f end))
  (at level 61, pat pattern, m at next level, right associativity).

(** *** products.go: the methods of [*ProductServiceOp] *)

(** ListWithPagination lists products and return pagination to retrieve
    next/previous results. *)
Definition ProductServiceOp_ListWithPagination (options : option Any)
  : Method ProductServiceOp (slice Product * option Pagination * error) :=
  let path := Sprintf (B "%s.json") [OpS productsBasePath] in
  let resource := {| Products := None |} in
  c <- field product_client ;;
  '(resource, pagination, err) <-
    call (Client_ListWithPagination c _ path resource options) ;;
  match err with
  | Some _ => ret (None, None, err)
  | None => ret (Products resource, pagination, None)
  end.

(** List products *)
Definition ProductServiceOp_List (options : option Any)
  : Method ProductServiceOp (slice Product * error) :=
  '(products, _, err) <- ProductServiceOp_ListWithPagination options ;;
  match err with
  | Some _ => ret (None, err)
  | None => ret (products, None)
  end.

(** Count products *)
Definition ProductServiceOp_Count (options : option Any)
  : Method ProductServiceOp (Z * error) :=
  let path := Sprintf (B "%s/count.json") [OpS productsBasePath] in
  c <- field product_client ;;
  call (Client_Count c path options).

(** Get individual product *)
Definition ProductServiceOp_Get (productID : Z) (options : option Any)
  : Method ProductServiceOp (option Product * error) :=
  let path := Sprintf (B "%s/%d.json") [OpS productsBasePath; OpD productID] in
  let resource := {| ProductResource_Product := None |} in
  c <- field product_client ;;
  '(resource, err) <- call (Client_Get c _ path resource options) ;;
  ret (ProductResource_Product resource, err).

(** Create a new product *)
Definition ProductServiceOp_Create (product : Product)
  : Method ProductServiceOp (option Product * error) :=
  let path := Sprintf (B "%s.json") [OpS productsBasePath] in
  let wrappedData := {| ProductResource_Product := Some product |} in
  let resource := {| ProductResource_Product := None |} in
  c <- field product_client ;;
  '(resource, err) <- call (Client_Post c _ path wrappedData resource) ;;
  ret (ProductResource_Product resource, err).

(** Update an existing product *)
Definition ProductServiceOp_Update (product : Product)
  : Method ProductServiceOp (option Product * error) :=
  let path := Sprintf (B "%s/%d.json")
                      [OpS productsBasePath; OpD (Product_ID product)] in
  let wrappedData := {| ProductResource_Product := Some product |} in
  let resource := {| ProductResource_Product := None |} in
  c <- field product_client ;;
  '(resource, err) <- call (Client_Put c _ path wrappedData resource) ;;
  ret (ProductResource_Product resource, err).

(** Delete an existing product *)
Definition ProductServiceOp_Delete (productID : Z)
  : Method ProductServiceOp error :=
  c <- field product_client ;;
  call (Client_Delete c (Sprintf (B "%s/%d.json")
                                 [OpS productsBasePath; OpD productID])).

(** The [MetafieldServiceOp] every metafield method of a product
    builds. *)
Definition product_metafields (productID : Z)
  : Method ProductServiceOp MetafieldServiceOp :=
  c <- field product_client ;;
  ret {| metafield_client := c;
         metafield_resource := productsResourceName;
         metafield_resourceID := productID |}.

(** ListMetafields for a product *)
Definition ProductServiceOp_ListMetafields (productID : Z)
           (options : option Any)
  : Method ProductServiceOp (slice Metafield * error) :=
  metafieldService <- product_metafields productID ;;
  call (Metafield_List metafieldService options).

(** Count metafields for a product *)
Definition ProductServiceOp_CountMetafields (productID : Z)
           (options : option Any)
  : Method ProductServiceOp (Z * error) :=
  metafieldService <- product_metafields productID ;;
  call (Metafield_Count metafieldService options).

(** GetMetafield for a product *)
Definition ProductServiceOp_GetMetafield (productID metafieldID : Z)
           (options : option Any)
  : Method ProductServiceOp (option Metafield * error) :=
  metafieldService <- product_metafields productID ;;
  call (Metafield_Get metafieldService metafieldID options).

(** CreateMetafield for a product *)
Definition ProductServiceOp_CreateMetafield (productID : Z)
           (metafield : Metafield)
  : Method ProductServiceOp (option Metafield * error) :=
  metafieldService <- product_metafields productID ;;
  call (Metafield_Create metafieldService metafield).

(** UpdateMetafield for a product *)
Definition ProductServiceOp_UpdateMetafield (productID : Z)
           (metafield : Metafield)
  : Method ProductServiceOp (option Metafield * error) :=
  metafieldService <- product_metafields productID ;;
  call (Metafield_Update metafieldService metafield).

(** DeleteMetafield for a product *)
Definition ProductServiceOp_DeleteMetafield (productID metafieldID : Z)
  : Method ProductServiceOp error :=
  metafieldService <- product_metafields productID ;;
  call (Metafield_Delete metafieldService metafieldID).

(** *** payouts.go: the methods of [*PayoutsServiceOp] *)

Definition PayoutsServiceOp_ListWithPagination (options : option Any)
  : Method PayoutsServiceOp (slice Payout * option Pagination * error) :=
  let path := Sprintf (B "%s.json") [OpS payoutsBasePath] in
  let resource := {| Payouts := None |} in
  c <- field payouts_client ;;
  '(resource, pagination, err) <-
    call (Client_ListWithPagination c _ path resource options) ;;
  match err with
  | Some _ => ret (None, None, err)
  | None => ret (Payouts resource, pagination, None)
  end.

(** List payouts *)
Definition PayoutsServiceOp_List (options : option Any)
  : Method PayoutsServiceOp (slice Payout * error) :=
  '(payouts, _, err) <- PayoutsServiceOp_ListWithPagination options ;;
  match err with
  | Some _ => ret (None, err)
  | None => ret (payouts, None)
  end.

(** Get individual payout *)
Definition PayoutsServiceOp_Get (id : Z) (options : option Any)
  : Method PayoutsServiceOp (option Payout * error) :=
  let path := Sprintf (B "%s/%d.json") [OpS payoutsBasePath; OpD id] in
  let resource := {| PayoutResource_Payout := None |} in
  c <- field payouts_client ;;
  '(resource, err) <- call (Client_Get c _ path resource options) ;;
  ret (PayoutResource_Payout resource, err).

(** TransactionsForPayout load all transactions for given payout ID *)
Definition PayoutsServiceOp_TransactionsForPayout (payoutID : Z)
  : Method PayoutsServiceOp (slice PayoutTransaction * error) :=
  let path := Sprintf (B "%s.json?payout_id=%d")
                      [OpS payoutTransactionsBasePath; OpD payoutID] in
  let resource := {| Transactions := None |} in
  c <- field payouts_client ;;
  '(resource, _, err) <-
    call (Client_ListWithPagination c _ path resource None) ;;
  match err with
  | Some _ => ret (None, err)
  | None => ret (Transactions resource, None)
  end.

(** *** The client's paged list request *)
Section Client.

Context {W : Type}.

(** Modelled from the spec: the HTTP collaborator (section 6), asked
    for a GET of a URL; it fails with an error or answers with a
    response. *)
Variable http_get : bytes -> W -> (Err + Response) * W.

(** Modelled from the spec: the URL of the request, [path?query]
    (section 4.2, steps 1 and 2); nil options and an empty query add
    nothing to the path. *)
Definition request_url (path : bytes) (options : option Any) : bytes :=
  match options with
  | None => path
  | Some o =>
      match query_of o with
      | [] => path
      | q => path ++ "?"%char :: q
      end
  end.

(** Modelled from the spec: a status inside 2xx (section 4.2, step
    3). *)
Definition is_2xx (status : Z) : bool :=
  ((200 <=? status) && (status <? 300))%Z.

(** Modelled from the spec: the method [ListWithPagination] of
    [*Client] is not in
    the two source files.  Section 4.2, steps 1 to 6: the options are
    serialised, the GET is issued, a transport failure or a status
    outside 2xx is an error, the body is decoded into the resource,
    the Link header is parsed. *)
Definition client_ListWithPagination (R : Type) (J : JSON R)
           (path : bytes) (resource : R) (options : option Any) (w : W)
  : (R * option Pagination * error) * W :=
  match http_get (request_url path options) w with
  | (inl e, w') => ((resource, None, Some e), w')
  | (inr resp, w') =>
      if is_2xx (Status resp) then
        match unmarshal (Body resp) resource with
        | Some r =>
            ((r, Some (extractPagination (get (B "Link") (Header resp))),
              None), w')
        | None => ((resource, None, Some (DecodeError (Body resp))), w')
        end
      else ((resource, None, Some (APIError (Status resp) (Body resp))), w')
  end.

(** Modelled from the spec: a handler that answers the paged list
    requests by [client_ListWithPagination] and leaves every other
    call to [other]. *)
Definition spec_client (other : handler W) : handler W :=
  fun T e =>
    match e in CallE T return W -> T * W with
    | Client_ListWithPagination c J path resource options =>
        client_ListWithPagination J path resource options
    | e' => other _ e'
    end.

End Client.

End Shopify.

(** * Notions used by the statements *)

(** The entries the pattern is meant for: [n] spaces, the URL in angle
    brackets, the relation in double quotes, [m] spaces. *)
Definition link_entry (n : nat) (url rel : bytes) (m : nat) : bytes :=
  repeat " "%char n ++ "<"%char :: url ++ (B ">; rel=" ++ [dquote])
    ++ rel ++ [dquote] ++ repeat " "%char m.

Definition no_gt (url : bytes) : bool := forallb (none_of [">"%char]) url.

Definition is_rel (rel : bytes) : Prop := rel = B "previous" \/ rel = B "next".

(** ASCII white space (Go's [unicode.IsSpace] below U+0080): tab, line
    feed, vertical tab, form feed, carriage return, space. *)
Definition is_space (c : ascii) : bool :=
  existsb (Ascii.eqb c)
          [ascii_of_nat 9; ascii_of_nat 10; ascii_of_nat 11; ascii_of_nat 12;
           ascii_of_nat 13; " "%char].

(** An entry with arbitrary white space around it and an arbitrary
    [>]-free URL. *)
Definition spaced_entry (ws1 url rel ws2 : bytes) : bytes :=
  ws1 ++ "<"%char :: url ++ (B ">; rel=" ++ [dquote])
    ++ rel ++ [dquote] ++ ws2.

(** Auxiliary notions for reasoning about the matcher. *)

(** A state whose next byte satisfies [p]. *)
Definition heads (p : ascii -> bool) (st : mstate) : Prop :=
  exists c t, rest st = c :: t /\ p c = true.

(** What remains after a run: nothing, or a byte outside [p]. *)
Definition stops (p : ascii -> bool) (t : bytes) : Prop :=
  match t with [] => True | c :: _ => p c = false end.

Definition first_differs (w t : bytes) : bool :=
  match w, t with
  | c0 :: _, c :: _ => negb (Ascii.eqb c0 c)
  | _ :: _, [] => true
  | [], _ => false
  end.

(** [st'] is [st] after reading [w], captures untouched. *)
Definition reads (st : mstate) (w : bytes) (st' : mstate) : Prop :=
  rest st = w ++ rest st' /\ pos st' = pos st + length w
  /\ caps st' = caps st.

(** ** Notions used by the statements about the services *)

(** A method that leaves its receiver as it found it, whoever answers
    its calls. *)
Definition preserves_receiver `{Externals} (S A : Type) (m : Method S A)
  : Prop :=
  forall (W : Type) (h : handler W) (w : W) (s : S),
    snd (fst (fst (run h (m s) w))) = s.

(** Two handlers that give the same answers as long as their states are
    related by [R]. *)
Definition same_answers `{Externals} (W1 W2 : Type)
           (h1 : handler W1) (h2 : handler W2) (R : W1 -> W2 -> Prop)
  : Prop :=
  forall (T : Type) (e : CallE T) (w1 : W1) (w2 : W2),
    R w1 w2 ->
    fst (h1 T e w1) = fst (h2 T e w2)
    /\ R (snd (h1 T e w1)) (snd (h2 T e w2)).

(** The result of a paged list method once the client has answered
    [(resource, pagination, err)]. *)
Definition list_result (R T : Type) (items : R -> slice T)
           (answer : R * option Pagination * error)
  : slice T * option Pagination * error :=
  let '(resource, pagination, err) := answer in
  match err with
  | Some _ => (None, None, err)
  | None => (items resource, pagination, None)
  end.

(** Dropping the pagination of a paged result. *)
Definition drop_pagination (T : Type)
           (r : slice T * option Pagination * error) : slice T * error :=
  let '(items, _, err) := r in
  match err with
  | Some _ => (None, err)
  | None => (items, None)
  end.

(** ** Notions used by the statements about query strings *)

(** [sep] occurs in [s]. *)
Definition has (sep : ascii) (s : bytes) : bool := existsb (Ascii.eqb sep) s.

(** A cursor as [cursor_of_query] builds them: the limit is an [int],
    and [page_info] and [limit] are not among the other parameters. *)
Definition wf_cursor (c : ListOptions) : Prop :=
  in_int (Limit c) = true
  /\ forallb (fun kv => negb (is_cursor_key (fst kv))) (Params c) = true.

(** ** Notions used by the statements about the Link header *)

(** A header none of whose entries yields a cursor: empty, or malformed
    throughout. *)
Definition no_valid_entry (hdr : bytes) : Prop :=
  forall e, In e (split_on "," hdr) -> entry_cursor e = None.

(** Pairs in the order of their keys. *)
Definition key_le (a b : bytes * bytes) : Prop :=
  bytes_leb (fst a) (fst b) = true.

Definition ordered_by_key (ps : list (bytes * bytes)) : Prop :=
  StronglySorted key_le ps.



(** ** Closed instances, for the worked examples *)

Definition demo_ext : Externals :=
  {| time_Time := unit; decimal_Decimal := unit; OnlyDate := unit;
     Variant := unit; Image := unit; Metafield := unit; Any := bytes;
     ClientRef := nat;
     query_of := fun q => q |}.

(** A decoder that leaves the resource as it is. *)
Definition demo_json (R : Type) : JSON R := fun _ r => Some r.

Arguments demo_json R : clear implicits.

Definition demo_products : @ProductServiceOp demo_ext :=
  @Build_ProductServiceOp demo_ext 0.

(** A handler that answers every call with a transport error and moves
    its own state by [tick]. *)
Definition refuse_with (W : Type) (tick : W -> W) : @handler demo_ext W :=
  fun T e =>
    let err := Some (TransportError (B "connection refused")) in
    match e in CallE T return W -> T * W with
    | Client_ListWithPagination _ _ _ resource _ =>
        fun w => ((resource, None, err), tick w)
    | Client_Count _ _ _ => fun w => ((0%Z, err), tick w)
    | Client_Get _ _ _ resource _ => fun w => ((resource, err), tick w)
    | Client_Post _ _ _ _ resource => fun w => ((resource, err), tick w)
    | Client_Put _ _ _ _ resource => fun w => ((resource, err), tick w)
    | Client_Delete _ _ => fun w => (err, tick w)
    | Metafield_List _ _ => fun w => ((None, err), tick w)
    | Metafield_Count _ _ => fun w => ((0%Z, err), tick w)
    | Metafield_Get _ _ _ => fun w => ((None, err), tick w)
    | Metafield_Create _ _ => fun w => ((None, err), tick w)
    | Metafield_Update _ _ => fun w => ((None, err), tick w)
    | Metafield_Delete _ _ => fun w => (err, tick w)
    end.

Definition refuse : @handler demo_ext unit := refuse_with (fun w => w).

(** The same answers from a handler that counts the calls. *)
Definition refuse_counting : @handler demo_ext nat := refuse_with S.

(** An HTTP collaborator that answers 200 with no headers and an empty
    body. *)
Definition plain_ok : bytes -> unit -> (Err + Response) * unit :=
  fun _ w => (inr {| Status := 200; Header := []; Body := [] |}, w).

Definition example_url : bytes :=
  B "https://shop.example.com/admin/api/2023-01/products.json?limit=50&page_info=abc123".

(** The header of the example of section 8 of the specification. *)
Definition example_header : bytes :=
  B "<https://shop.example.com/admin/api/2023-01/products.json?limit=50&page_info=abc123>; rel="
    ++ [dquote] ++ B "next" ++ [dquote].

(** The same with an entry of an unknown relation before it. *)
Definition example_header_first : bytes :=
  B "<https://shop.example.com/admin/api/2023-01/products.json?limit=50>; rel="
    ++ [dquote] ++ B "first" ++ [dquote] ++ B ", " ++ example_header.



Definition example_cursor : ListOptions :=
  {| PageInfo := B "abc123"; Limit := 50; Params := [] |}.

(** ** Notions used by the further properties of the services *)

(** What a method returns, apart from its receiver. *)
Definition outcome `{Externals} (W S A : Type) (h : handler W)
           (m : Method S A) (s : S) (w : W) : A :=
  fst (fst (fst (run h (m s) w))).

(** The calls a method issues. *)
Definition calls `{Externals} (W S A : Type) (h : handler W)
           (m : Method S A) (s : S) (w : W) : call_log :=
  snd (run h (m s) w).

(** The error in the answer to a call. *)
Definition answer_error `{Externals} (T : Type) (e : CallE T) : T -> error :=
  match e in CallE T return T -> error with
  | Client_ListWithPagination _ _ _ _ _ => fun t => snd t
  | Client_Count _ _ _ => fun t => snd t
  | Client_Get _ _ _ _ _ => fun t => snd t
  | Client_Post _ _ _ _ _ => fun t => snd t
  | Client_Put _ _ _ _ _ => fun t => snd t
  | Client_Delete _ _ => fun t => t
  | Metafield_List _ _ => fun t => snd t
  | Metafield_Count _ _ => fun t => snd t
  | Metafield_Get _ _ _ => fun t => snd t
  | Metafield_Create _ _ => fun t => snd t
  | Metafield_Update _ _ => fun t => snd t
  | Metafield_Delete _ _ => fun t => t
  end.

(** The errors of the answers a program receives, oldest first. *)
Fixpoint answer_errors `{Externals} (W A : Type) (h : handler W)
         (p : Prog A) (w : W) : list error :=
  match p with
  | Ret _ => []
  | Call e k =>
      let (t, w') := h _ e w in
      answer_error e t :: answer_errors h (k t) w'
  end.

(** The client a call is made on: the receiver of a client method, the
    [client] field of the receiver of a metafield method. *)
Definition call_client `{Externals} (T : Type) (e : CallE T) : ClientRef :=
  match e with
  | Client_ListWithPagination c _ _ _ _ => c
  | Client_Count c _ _ => c
  | Client_Get c _ _ _ _ => c
  | Client_Post c _ _ _ _ => c
  | Client_Put c _ _ _ _ => c
  | Client_Delete c _ => c
  | Metafield_List m _ => metafield_client m
  | Metafield_Count m _ => metafield_client m
  | Metafield_Get m _ _ => metafield_client m
  | Metafield_Create m _ => metafield_client m
  | Metafield_Update m _ => metafield_client m
  | Metafield_Delete m _ => metafield_client m
  end.

(** The path handed to a client method; a metafield method is handed
    none. *)
Definition call_path `{Externals} (T : Type) (e : CallE T) : option bytes :=
  match e with
  | Client_ListWithPagination _ _ path _ _ => Some path
  | Client_Count _ path _ => Some path
  | Client_Get _ _ path _ _ => Some path
  | Client_Post _ _ path _ _ => Some path
  | Client_Put _ _ path _ _ => Some path
  | Client_Delete _ path => Some path
  | _ => None
  end.

(** The receiver of a metafield method. *)
Definition call_metafields `{Externals} (T : Type) (e : CallE T)
  : option MetafieldServiceOp :=
  match e with
  | Metafield_List m _ => Some m
  | Metafield_Count m _ => Some m
  | Metafield_Get m _ _ => Some m
  | Metafield_Create m _ => Some m
  | Metafield_Update m _ => Some m
  | Metafield_Delete m _ => Some m
  | _ => None
  end.

Definition log_clients `{Externals} (log : call_log) : list ClientRef :=
  map (fun ev => call_client (projT2 ev)) log.

Definition log_paths `{Externals} (log : call_log) : list (option bytes) :=
  map (fun ev => call_path (projT2 ev)) log.

Definition log_metafields `{Externals} (log : call_log)
  : list (option MetafieldServiceOp) :=
  map (fun ev => call_metafields (projT2 ev)) log.

(** The path of one product, payout or transaction list. *)
Definition product_path (id : Z) : bytes :=
  B "products/" ++ itoa id ++ B ".json".

Definition payout_path (id : Z) : bytes :=
  B "shopify_payments/payouts/" ++ itoa id ++ B ".json".

Definition transactions_path (id : Z) : bytes :=
  B "shopify_payments/balance/transactions.json?payout_id=" ++ itoa id.

(** ** Notions used by the further properties of the pattern *)

(** [text] between [k] and [j] spaces. *)
Definition padded (k : nat) (text : bytes) (j : nat) : bytes :=
  repeat " "%char k ++ text ++ repeat " "%char j.

(** The submatches of the groups, without the whole match. *)
Definition groups (text : bytes) : option (list bytes) :=
  option_map (@tl bytes) (FindStringSubmatch linkRegex text).

(** How often a byte occurs. *)
Definition occurrences (c : ascii) (s : bytes) : nat :=
  length (filter (Ascii.eqb c) s).

(** A decimal digit. *)
Definition is_digit (c : ascii) : bool :=
  (48 <=? nat_of_ascii c) && (nat_of_ascii c <=? 57).

(* ================================================================== *)
(** * Properties *)

(** ** The matcher *)
Section MatcherFacts.

Lemma flat_map_single : forall (A C : Type) (f : A -> list C) (a : A),
    flat_map f [a] = f a.
Proof. intros; simpl; apply app_nil_r. Qed.

Lemma single_cons : forall p n c t cs,
    single p (MState n (c :: t) cs)
    = if p c then [MState (S n) t cs] else [].
Proof. reflexivity. Qed.

Lemma single_nil : forall p n cs, single p (MState n [] cs) = [].
Proof. reflexivity. Qed.

Lemma star_loop_S : forall step fuel st,
    star_loop step (S fuel) st
    = flat_map (fun st' =>
                  if length (rest st') <? length (rest st)
                  then star_loop step fuel st' else [])
               (step st) ++ [st].
Proof. reflexivity. Qed.

(** A greedy run of [p]-bytes followed by a continuation that refuses
    [p]-bytes takes the whole run. *)
Lemma star_loop_run :
  forall (C : Type) (p : ascii -> bool) (k : mstate -> list C),
    (forall st, heads p st -> k st = []) ->
    forall (w t : bytes) (fuel n : nat) (cs : list (nat * bytes)),
      forallb p w = true -> stops p t ->
      length (w ++ t) < fuel ->
      flat_map k (star_loop (single p) fuel (MState n (w ++ t) cs))
      = k (MState (n + length w) t cs).
Proof.
  intros C p k Hk w; induction w as [|c w IH]; intros t fuel n cs Hw Ht Hf.
  - destruct fuel as [|fuel]; [simpl in Hf; lia|].
    simpl. rewrite Nat.add_0_r.
    assert (Hs : single p (MState n t cs) = []).
    { unfold single; simpl. destruct t as [|c t]; [reflexivity|].
      simpl in Ht. now rewrite Ht. }
    rewrite Hs. simpl. apply app_nil_r.
  - destruct fuel as [|fuel]; [simpl in Hf; lia|].
    simpl in Hw. apply andb_true_iff in Hw as [Hc Hw].
    rewrite star_loop_S. cbn [app]. rewrite single_cons, Hc.
    rewrite flat_map_single. cbn [rest].
    replace (length (w ++ t) <? length (c :: w ++ t)) with true
      by (symmetry; apply Nat.ltb_lt; simpl; lia).
    rewrite flat_map_app, flat_map_single.
    rewrite (Hk (MState n (c :: w ++ t) cs))
      by (exists c, (w ++ t); auto).
    rewrite app_nil_r.
    rewrite IH; auto.
    + f_equal. f_equal. simpl. lia.
    + simpl in Hf. lia.
Qed.

Lemma star_run :
  forall (C : Type) (p : ascii -> bool) (k : mstate -> list C),
    (forall st, heads p st -> k st = []) ->
    forall (w t : bytes) (n : nat) (cs : list (nat * bytes)),
      forallb p w = true -> stops p t ->
      flat_map k (star (single p) (MState n (w ++ t) cs))
      = k (MState (n + length w) t cs).
Proof.
  intros. unfold star. apply star_loop_run; auto.
Qed.

Lemma rmatch_lits_app : forall (w t : bytes) n cs,
    rmatch (lits w) (MState n (w ++ t) cs) = [MState (n + length w) t cs].
Proof.
  induction w as [|c w IH]; intros t n cs; simpl.
  - now rewrite Nat.add_0_r.
  - unfold single; simpl. rewrite Ascii.eqb_refl. simpl.
    rewrite IH, app_nil_r. do 2 f_equal. lia.
Qed.

End MatcherFacts.

Section LinkRegexFacts.

Lemma rmatch_Cat : forall r1 r2 st,
    rmatch (Cat r1 r2) st = flat_map (rmatch r2) (rmatch r1 st).
Proof. reflexivity. Qed.

Lemma rmatch_Star_Char : forall c st,
    rmatch (Star (Char c)) st = star (single (Ascii.eqb c)) st.
Proof. reflexivity. Qed.

Lemma forallb_repeat : forall (p : ascii -> bool) c n,
    p c = true -> forallb p (repeat c n) = true.
Proof. induction n; simpl; intros; [|rewrite H]; auto. Qed.

Lemma heads_eqb : forall c st,
    heads (Ascii.eqb c) st -> exists t, rest st = c :: t.
Proof.
  intros c st (c' & t & Hr & Hc). apply Ascii.eqb_eq in Hc. subst c'.
  now exists t.
Qed.

(** [ *$] on trailing spaces. *)
Lemma link_tail_spaces : forall n m cs,
    rmatch (Cat (Star (Char " ")) EndText) (MState n (repeat " "%char m) cs)
    = [MState (n + m) [] cs].
Proof.
  intros. rewrite rmatch_Cat, rmatch_Star_Char.
  rewrite <- (app_nil_r (repeat " "%char m)).
  rewrite star_run.
  - rewrite repeat_length. reflexivity.
  - intros st H. apply heads_eqb in H as [t Ht]. simpl. now rewrite Ht.
  - now apply forallb_repeat.
  - exact I.
Qed.

Lemma flat_map_map : forall (A A' C : Type) (f : A -> A') (k : A' -> list C) l,
    flat_map k (map f l) = flat_map (fun a => k (f a)) l.
Proof. induction l; simpl; congruence. Qed.

Lemma rmatch_lits_mismatch : forall w st,
    first_differs w (rest st) = true -> rmatch (lits w) st = [].
Proof.
  intros [|c0 w] [n [|c t] cs]; simpl; try discriminate; auto.
  intros H. rewrite single_cons.
  destruct (Ascii.eqb c0 c); [discriminate|reflexivity].
Qed.

Lemma firstn_length_app : forall (A : Type) (w t : list A),
    firstn (length w) (w ++ t) = w.
Proof. induction w; simpl; intros; congruence. Qed.

Lemma capture_app : forall k n w t cs,
    capture k (MState n (w ++ t) cs) (MState (n + length w) t cs)
    = MState (n + length w) t ((k, w) :: cs).
Proof.
  intros. unfold capture; simpl.
  replace (n + length w - n) with (length w) by lia.
  now rewrite firstn_length_app.
Qed.

(** The relation group, the closing quote and the trailing spaces. *)
Lemma link_tail_rel : forall n rel m cs,
    is_rel rel ->
    rmatch (Cat (Group 2 (Alt (lits (B "previous")) (lits (B "next"))))
           (Cat (Char dquote) (Cat (Star (Char " ")) EndText)))
           (MState n (rel ++ dquote :: repeat " "%char m) cs)
    = [MState (n + length rel + 1 + m) [] ((2, rel) :: cs)].
Proof.
  intros n rel m cs Hrel. rewrite rmatch_Cat.
  assert (Hg : rmatch (Group 2 (Alt (lits (B "previous")) (lits (B "next"))))
                 (MState n (rel ++ dquote :: repeat " "%char m) cs)
               = [MState (n + length rel) (dquote :: repeat " "%char m)
                         ((2, rel) :: cs)]).
  { cbn [rmatch]. destruct Hrel as [-> | ->].
    - rewrite rmatch_lits_app.
      rewrite rmatch_lits_mismatch by reflexivity.
      cbn [app map]. now rewrite capture_app.
    - rewrite rmatch_lits_mismatch by reflexivity.
      rewrite rmatch_lits_app.
      cbn [app map]. now rewrite capture_app. }
  rewrite Hg, flat_map_single, rmatch_Cat.
  change (rmatch (Char dquote) ?st) with (single (Ascii.eqb dquote) st).
  cbn [app]. rewrite single_cons, Ascii.eqb_refl, flat_map_single.
  rewrite link_tail_spaces. do 2 f_equal. lia.
Qed.

Lemma rmatch_Group_Plus_NoneOf : forall k l st,
    rmatch (Group k (Plus (NoneOf l))) st
    = map (capture k st)
          (flat_map (star (single (none_of l))) (single (none_of l) st)).
Proof. reflexivity. Qed.

(** The URL group and everything after it. *)
Lemma link_tail_url : forall n url rel m cs,
    url <> [] -> no_gt url = true -> is_rel rel ->
    rmatch (Cat (Group 1 (Plus (NoneOf [">"%char])))
           (Cat (lits (B ">; rel=" ++ [dquote]))
           (Cat (Group 2 (Alt (lits (B "previous")) (lits (B "next"))))
           (Cat (Char dquote) (Cat (Star (Char " ")) EndText)))))
           (MState n (url ++ (B ">; rel=" ++ [dquote]) ++ rel ++ [dquote]
                          ++ repeat " "%char m) cs)
    = [MState (n + length url + 8 + length rel + 1 + m) []
              ((2, rel) :: (1, url) :: cs)].
Proof.
  intros n url rel m cs Hne Hurl Hrel.
  destruct url as [|c u]; [contradiction|]. clear Hne.
  unfold no_gt in Hurl. simpl in Hurl.
  apply andb_true_iff in Hurl as [Hc Hu].
  rewrite rmatch_Cat, rmatch_Group_Plus_NoneOf.
  cbn [app]. rewrite single_cons, Hc, flat_map_single, flat_map_map.
  rewrite star_run; auto.
  - change (MState n (c :: u ++ ?t) cs) with (MState n ((c :: u) ++ t) cs).
    replace (S n + length u) with (n + length (c :: u)) by (simpl; lia).
    rewrite capture_app, rmatch_Cat, rmatch_lits_app, flat_map_single.
    rewrite link_tail_rel by assumption.
    reflexivity.
  - intros st (c' & t & Hr & Hc').
    rewrite rmatch_Cat, rmatch_lits_mismatch; [reflexivity|].
    cbn [capture rest]. rewrite Hr.
    change (negb (Ascii.eqb ">" c') = true).
    unfold none_of in Hc'. simpl in Hc'. rewrite orb_false_r in Hc'.
    now rewrite Ascii.eqb_sym.
  - reflexivity.
Qed.

Lemma length_link_entry : forall n url rel m,
    length (link_entry n url rel m)
    = n + 1 + length url + 8 + length rel + 1 + m.
Proof.
  intros. unfold link_entry.
  repeat (rewrite length_app || rewrite repeat_length || cbn [length]).
  change (length (B ">; rel=")) with 7. lia.
Qed.

Lemma rmatch_link_entry : forall n url rel m,
    url <> [] -> no_gt url = true -> is_rel rel ->
    rmatch linkRegex (MState 0 (link_entry n url rel m) [])
    = [MState (length (link_entry n url rel m)) [] [(2, rel); (1, url)]].
Proof.
  intros n url rel m Hne Hurl Hrel. unfold linkRegex.
  rewrite rmatch_Cat.
  change (rmatch BeginText ?st) with (if pos st =? 0 then [st] else []).
  cbn [pos Nat.eqb]. rewrite flat_map_single.
  rewrite rmatch_Cat, rmatch_Star_Char. unfold link_entry at 1.
  rewrite star_run.
  - rewrite rmatch_Cat.
    change (rmatch (Char ?c) ?st) with (single (Ascii.eqb c) st).
    rewrite single_cons, Ascii.eqb_refl, flat_map_single.
    rewrite link_tail_url by assumption.
    rewrite length_link_entry, repeat_length. do 2 f_equal. lia.
  - intros st H. apply heads_eqb in H as [t Ht].
    rewrite rmatch_Cat.
    change (rmatch (Char ?c) ?st) with (single (Ascii.eqb c) st).
    unfold single. now rewrite Ht.
  - now apply forallb_repeat.
  - reflexivity.
Qed.

Lemma in_single : forall p st st',
    In st' (single p st) ->
    exists c, p c = true /\ reads st [c] st'.
Proof.
  intros p [n [|c t] cs] st'; unfold single; simpl; [tauto|].
  destruct (p c) eqn:Hc; simpl; [|tauto].
  intros [<- | []]. exists c. unfold reads; simpl.
  repeat split; auto. lia.
Qed.

Lemma reads_trans : forall st1 w1 st2 w2 st3,
    reads st1 w1 st2 -> reads st2 w2 st3 -> reads st1 (w1 ++ w2) st3.
Proof.
  unfold reads. intros st1 w1 st2 w2 st3 (R1 & P1 & C1) (R2 & P2 & C2).
  rewrite R1, R2, P2, P1, C2, C1, length_app, app_assoc.
  repeat split; lia.
Qed.

Lemma in_star_single : forall p fuel st st',
    In st' (star_loop (single p) fuel st) ->
    exists w, forallb p w = true /\ reads st w st'.
Proof.
  intros p fuel; induction fuel as [|fuel IH]; intros st st' Hin.
  - destruct Hin as [<- | []]. exists []. unfold reads; simpl.
    repeat split; auto.
  - rewrite star_loop_S in Hin. apply in_app_or in Hin as [Hin | [<- | []]].
    + apply in_flat_map in Hin as (st1 & H1 & Hin).
      destruct (length (rest st1) <? length (rest st)); [|destruct Hin].
      apply in_single in H1 as (c & Hc & H1).
      apply IH in Hin as (w & Hw & Hin).
      exists ([c] ++ w). split; [simpl; now rewrite Hc|].
      eapply reads_trans; eauto.
    + exists []. unfold reads; simpl. repeat split; auto.
Qed.

Lemma in_lits : forall w st st',
    In st' (rmatch (lits w) st) -> reads st w st'.
Proof.
  induction w as [|c w IH]; intros st st' Hin.
  - destruct Hin as [<- | []]. unfold reads; simpl. repeat split; auto.
  - simpl in Hin. apply in_flat_map in Hin as (st1 & H1 & Hin).
    apply in_single in H1 as (c' & Hc & H1).
    apply Ascii.eqb_eq in Hc. subst c'.
    apply IH in Hin. apply (reads_trans H1 Hin).
Qed.

Lemma forallb_eqb_repeat : forall c w,
    forallb (Ascii.eqb c) w = true -> w = repeat c (length w).
Proof.
  induction w as [|a w IH]; simpl; intros H; [reflexivity|].
  apply andb_true_iff in H as [Ha Hw]. apply Ascii.eqb_eq in Ha.
  subst a. f_equal. auto.
Qed.

Lemma capture_reads : forall k st w st',
    reads st w st' ->
    capture k st st' = MState (pos st') (rest st') ((k, w) :: caps st).
Proof.
  intros k st w st' (R & P & C). unfold capture.
  rewrite R, P, C. replace (pos st + length w - pos st) with (length w) by lia.
  now rewrite firstn_length_app.
Qed.

Lemma in_group : forall k r st st',
    In st' (rmatch (Group k r) st) ->
    exists s, In s (rmatch r st) /\ st' = capture k st s.
Proof.
  intros k r st st' H. cbn [rmatch] in H. apply in_map_iff in H as (s & <- & H).
  eauto.
Qed.

(** Every match of the pattern reads a whole entry of the intended
    shape, from offset 0, and captures its URL and relation. *)
Lemma in_rmatch_linkRegex : forall a text st',
    In st' (rmatch linkRegex (MState a text [])) ->
    a = 0 /\
    exists n url rel m,
      text = link_entry n url rel m /\
      url <> [] /\ no_gt url = true /\ is_rel rel /\
      st' = MState (length text) [] [(2, rel); (1, url)].
Proof.
  intros a text st' Hin. unfold linkRegex in Hin.
  rewrite rmatch_Cat in Hin. apply in_flat_map in Hin as (s0 & H0 & Hin).
  change (rmatch BeginText ?st) with (if pos st =? 0 then [st] else []) in H0.
  cbn [pos] in H0. destruct (Nat.eqb_spec a 0) as [-> | _]; [|destruct H0].
  destruct H0 as [<- | []]. split; [reflexivity|].
  rewrite rmatch_Cat in Hin. apply in_flat_map in Hin as (s1 & H1 & Hin).
  apply in_star_single in H1 as (w1 & Hw1 & H1).
  rewrite rmatch_Cat in Hin. apply in_flat_map in Hin as (s2 & H2 & Hin).
  apply in_single in H2 as (c2 & Hc2 & H2). apply Ascii.eqb_eq in Hc2. subst c2.
  rewrite rmatch_Cat in Hin. apply in_flat_map in Hin as (s3 & H3 & Hin).
  apply in_group in H3 as (s3' & H3 & ->).
  cbn [rmatch] in H3. apply in_flat_map in H3 as (sa & Ha & H3).
  apply in_single in Ha as (c & Hc & Ha).
  apply in_star_single in H3 as (u & Hu & H3).
  pose proof (reads_trans Ha H3) as Hurl.
  rewrite (capture_reads 1 Hurl) in Hin.
  rewrite rmatch_Cat in Hin. apply in_flat_map in Hin as (s4 & H4 & Hin).
  apply in_lits in H4.
  rewrite rmatch_Cat in Hin. apply in_flat_map in Hin as (s5 & H5 & Hin).
  apply in_group in H5 as (s5' & H5 & ->).
  assert (Hrel : exists rel, is_rel rel /\ reads s4 rel s5').
  { cbn [rmatch] in H5. apply in_app_or in H5 as [H5 | H5];
      apply in_lits in H5; eexists; split; eauto; [now left | now right]. }
  destruct Hrel as (rel & Hrel & H5r). clear H5.
  rewrite (capture_reads 2 H5r) in Hin.
  rewrite rmatch_Cat in Hin. apply in_flat_map in Hin as (s6 & H6 & Hin).
  apply in_single in H6 as (c6 & Hc6 & H6). apply Ascii.eqb_eq in Hc6. subst c6.
  rewrite rmatch_Cat in Hin. apply in_flat_map in Hin as (s7 & H7 & Hin).
  apply in_star_single in H7 as (w2 & Hw2 & H7).
  cbn [rmatch] in Hin.
  exists (length w1), ([c] ++ u), rel, (length w2).
  apply forallb_eqb_repeat in Hw1, Hw2.
  destruct s1 as [p1 r1 c1], s2 as [p2 r2 c2], s3' as [p3 r3 c3],
    s4 as [p4 r4 c4], s5' as [p5 r5 c5], s6 as [p6 r6 c6], s7 as [p7 r7 c7].
  unfold reads in *. cbn [pos rest caps] in *.
  destruct r7; [|destruct Hin]. destruct Hin as [<- | []].
  clear Ha H3.
  destruct H1 as (T1 & P1 & C1), H2 as (T2 & P2 & C2),
    Hurl as (T3 & P3 & C3), H4 as (T4 & P4 & C4), H5r as (T5 & P5 & C5),
    H6 as (T6 & P6 & C6), H7 as (T7 & P7 & C7).
  assert (Htext : text = link_entry (length w1) ([c] ++ u) rel (length w2)).
  { unfold link_entry. rewrite <- Hw1, <- Hw2.
    rewrite T1, T2, T3, T4, T5, T6, T7, app_nil_r. reflexivity. }
  split; [exact Htext|].
  split; [discriminate|].
  split; [unfold no_gt; simpl; now rewrite Hc, Hu|].
  split; [assumption|].
  f_equal.
  - rewrite Htext at 1. rewrite length_link_entry.
    rewrite P7, P6, P5, P4, P3, P2, P1. simpl. 
    change (length (B ">; rel=" ++ [dquote])) with 8. lia.
  - rewrite C7, C6, C4, C2, C1. reflexivity.
Qed.

Lemma search_head : forall r text start a from st',
    search r start text = Some (a, from, st') ->
    (exists tl, rmatch r (MState a from []) = st' :: tl) /\
    (exists k, a = start + k /\ from = skipn k text).
Proof.
  induction text as [|c text IH]; intros start a from st' H; simpl in H.
  - destruct (rmatch r (MState start [] [])) as [|s tl] eqn:E;
      [discriminate|].
    injection H as <- <- <-. split; [eauto|]. exists 0. split; [lia|reflexivity].
  - destruct (rmatch r (MState start (c :: text) [])) as [|s tl] eqn:E.
    + apply IH in H as (Hh & k & -> & ->). split; [assumption|].
      exists (S k). split; [lia|reflexivity].
    + injection H as <- <- <-. split; [eauto|].
      exists 0. split; [lia|reflexivity].
Qed.

Lemma search_here : forall r text start st' tl,
    rmatch r (MState start text []) = st' :: tl ->
    search r start text = Some (start, text, st').
Proof. intros. destruct text; simpl; now rewrite H. Qed.

Lemma num_subexp_linkRegex : num_subexp linkRegex = 2.
Proof. reflexivity. Qed.

Lemma FindStringSubmatch_link_entry : forall n url rel m,
    url <> [] -> no_gt url = true -> is_rel rel ->
    FindStringSubmatch linkRegex (link_entry n url rel m)
    = Some [link_entry n url rel m; url; rel].
Proof.
  intros. unfold FindStringSubmatch.
  erewrite search_here by (apply rmatch_link_entry; assumption).
  rewrite num_subexp_linkRegex. cbn [pos caps seq map lookup_cap Nat.eqb].
  now rewrite Nat.sub_0_r, firstn_all.
Qed.

Lemma FindStringSubmatch_linkRegex_inv : forall text l,
    FindStringSubmatch linkRegex text = Some l ->
    exists n url rel m,
      text = link_entry n url rel m /\
      url <> [] /\ no_gt url = true /\ is_rel rel /\
      l = [text; url; rel].
Proof.
  intros text l H. unfold FindStringSubmatch in H.
  destruct (search linkRegex 0 text) as [[[a from] st']|] eqn:E;
    [|discriminate].
  injection H as <-.
  apply search_head in E as ((tl & E) & k & Ha & Hfrom).
  assert (Hin : In st' (rmatch linkRegex (MState a from [])))
    by (rewrite E; now left).
  apply in_rmatch_linkRegex
    in Hin as (-> & n & url & rel & m & Ht & Hne & Hu & Hr & ->).
  assert (k = 0) by lia. subst k. simpl in Hfrom. subst from.
  exists n, url, rel, m. repeat (split; [assumption|]).
  cbn [pos caps seq map lookup_cap Nat.eqb].
  now rewrite Nat.sub_0_r, firstn_all.
Qed.

(** C1 (amended). [linkRegex] matches a text exactly when it is an entry
    made of spaces (U+0020 only), a non-empty URL without [>] in angle
    brackets, the relation [previous] or [next] in double quotes, and
    spaces; the submatches are then the whole text, the URL and the
    relation.  In particular an unknown relation, a missing space after
    the semicolon and an unquoted relation do not match. *)
Theorem linkRegex_matches_exactly :
  (forall text l,
      FindStringSubmatch linkRegex text = Some l <->
      exists n url rel m,
        text = link_entry n url rel m /\
        url <> [] /\ no_gt url = true /\ is_rel rel /\
        l = [text; url; rel])
  /\ FindStringSubmatch linkRegex
       (B "<u>; rel=" ++ [dquote] ++ B "first" ++ [dquote]) = None
  /\ FindStringSubmatch linkRegex
       (B "<u>;rel=" ++ [dquote] ++ B "next" ++ [dquote]) = None
  /\ FindStringSubmatch linkRegex (B "<u>; rel=next") = None.
Proof.
  split; [|repeat split; reflexivity].
  intros text l. split.
  - apply FindStringSubmatch_linkRegex_inv.
  - intros (n & url & rel & m & -> & Hne & Hu & Hr & ->).
    now apply FindStringSubmatch_link_entry.
Qed.

(** C1 as stated fails: a tab is white space, and an empty URL holds no
    [>], yet neither entry is matched. *)
Lemma linkRegex_rejects_tab_and_empty_url :
  (forallb is_space [ascii_of_nat 9] = true
   /\ no_gt (B "u") = true
   /\ FindStringSubmatch linkRegex
        (spaced_entry [ascii_of_nat 9] (B "u") (B "next") []) = None)
  /\ (no_gt [] = true
      /\ FindStringSubmatch linkRegex
           (spaced_entry [] [] (B "next") []) = None).
Proof. repeat split; reflexivity. Qed.

End LinkRegexFacts.

(** ** Query strings *)
Section QueryFacts.

Lemma bytes_eqb_refl : forall a, bytes_eqb a a = true.
Proof. induction a; simpl; [|rewrite Ascii.eqb_refl]; auto. Qed.

Lemma bytes_eqb_eq : forall a b, bytes_eqb a b = true <-> a = b.
Proof.
  induction a as [|x a IH]; intros [|y b]; simpl; split; intros H;
    try discriminate; try reflexivity.
  - apply andb_true_iff in H as [Hx Ha]. apply Ascii.eqb_eq in Hx.
    apply IH in Ha. congruence.
  - injection H as -> ->. now rewrite Ascii.eqb_refl, bytes_eqb_refl.
Qed.

(** Percent-encoding one byte and decoding it again. *)
Lemma unescape_escape_byte : forall (c : ascii) (t : bytes),
    unescape (escape_byte c ++ t) = option_map (cons c) (unescape t).
Proof.
  intros c t.
  destruct c as [[|] [|] [|] [|] [|] [|] [|] [|]]; reflexivity.
Qed.

Lemma unescape_escape_app : forall (s t : bytes),
    unescape (escape s ++ t) = option_map (app s) (unescape t).
Proof.
  induction s as [|c s IH]; intros t; unfold escape; simpl.
  - now destruct (unescape t).
  - rewrite <- app_assoc, unescape_escape_byte.
    fold (escape s). rewrite IH. now destruct (unescape t).
Qed.

Lemma unescape_escape : forall s, unescape (escape s) = Some s.
Proof.
  intros s. rewrite <- (app_nil_r (escape s)), unescape_escape_app.
  simpl. now rewrite app_nil_r.
Qed.

(** The escaped text holds no separator of a query. *)
Lemma escape_byte_no_sep : forall c,
    has "&" (escape_byte c) = false /\ has "=" (escape_byte c) = false.
Proof.
  intros c.
  destruct c as [[|] [|] [|] [|] [|] [|] [|] [|]]; split; reflexivity.
Qed.

Lemma escape_no_amp : forall s, has "&" (escape s) = false.
Proof.
  induction s as [|c s IH]; [reflexivity|].
  unfold escape, has; simpl. rewrite existsb_app.
  destruct (escape_byte_no_sep c) as [H _]. unfold has in H. rewrite H.
  exact IH.
Qed.

Lemma escape_no_eq : forall s, has "=" (escape s) = false.
Proof.
  induction s as [|c s IH]; [reflexivity|].
  unfold escape, has; simpl. rewrite existsb_app.
  destruct (escape_byte_no_sep c) as [_ H]. unfold has in H. rewrite H.
  exact IH.
Qed.

Lemma split_on_app : forall sep x t,
    has sep x = false ->
    split_on sep (x ++ sep :: t) = x :: split_on sep t.
Proof.
  intros sep x t; induction x as [|c x IH]; simpl; intros H.
  - now rewrite Ascii.eqb_refl.
  - apply orb_false_iff in H as [Hc Hx].
    rewrite Ascii.eqb_sym in Hc. rewrite Hc, IH by assumption. reflexivity.
Qed.

Lemma split_on_whole : forall sep x,
    has sep x = false -> split_on sep x = [x].
Proof.
  intros sep x; induction x as [|c x IH]; simpl; intros H; [reflexivity|].
  apply orb_false_iff in H as [Hc Hx].
  rewrite Ascii.eqb_sym in Hc. rewrite Hc, IH by assumption. reflexivity.
Qed.

Lemma cut_app : forall sep k v,
    has sep k = false -> cut sep (k ++ sep :: v) = (k, v).
Proof.
  intros sep k v; induction k as [|c k IH]; simpl; intros H.
  - now rewrite Ascii.eqb_refl.
  - apply orb_false_iff in H as [Hc Hk].
    rewrite Ascii.eqb_sym in Hc. rewrite Hc, IH by assumption. reflexivity.
Qed.

Lemma pair_no_amp : forall k v,
    has "&" (escape k ++ "="%char :: escape v) = false.
Proof.
  intros. unfold has. rewrite existsb_app. simpl.
  fold (has "&" (escape k)). fold (has "&" (escape v)).
  now rewrite !escape_no_amp.
Qed.

Lemma escape_byte_plain : forall c,
    has ";" (escape_byte c) = false /\ has "#" (escape_byte c) = false.
Proof.
  intros c.
  destruct c as [[|] [|] [|] [|] [|] [|] [|] [|]]; split; reflexivity.
Qed.

Lemma escape_no_semicolon : forall s, has ";" (escape s) = false.
Proof.
  induction s as [|c s IH]; [reflexivity|].
  unfold escape, has; simpl. rewrite existsb_app.
  destruct (escape_byte_plain c) as [H _]. unfold has in H. rewrite H.
  exact IH.
Qed.

Lemma escape_no_hash : forall s, has "#" (escape s) = false.
Proof.
  induction s as [|c s IH]; [reflexivity|].
  unfold escape, has; simpl. rewrite existsb_app.
  destruct (escape_byte_plain c) as [_ H]. unfold has in H. rewrite H.
  exact IH.
Qed.

Lemma pair_no_semicolon : forall k v,
    existsb (Ascii.eqb ";") (escape k ++ "="%char :: escape v) = false.
Proof.
  intros. rewrite existsb_app. simpl.
  fold (has ";" (escape k)). fold (has ";" (escape v)).
  now rewrite !escape_no_semicolon.
Qed.

Lemma parse_pairs_pair : forall k v segs,
    parse_pairs ((escape k ++ "="%char :: escape v) :: segs)
    = option_map (cons (k, v)) (parse_pairs segs).
Proof.
  intros. cbn [parse_pairs]. rewrite pair_no_semicolon.
  destruct (escape k ++ "="%char :: escape v) as [|c x] eqn:E.
  - destruct (escape k); discriminate.
  - rewrite <- E, cut_app by apply escape_no_eq.
    rewrite !unescape_escape. now destruct (parse_pairs segs).
Qed.

(** Parsing what [encode_pairs] wrote gives the pairs back. *)
Lemma parse_query_encode_pairs : forall ps,
    parse_query (encode_pairs ps) = Some ps.
Proof.
  unfold parse_query, encode_pairs.
  induction ps as [|[k v] ps IH]; [reflexivity|].
  destruct ps as [|kv ps].
  - cbn [map join fst snd]. rewrite split_on_whole by apply pair_no_amp.
    now rewrite parse_pairs_pair.
  - change (join "&" (map ?f ((k, v) :: kv :: ps)))
      with (f (k, v) ++ "&"%char :: join "&" (map f (kv :: ps))).
    cbn [fst snd]. rewrite split_on_app by apply pair_no_amp.
    rewrite parse_pairs_pair, IH. reflexivity.
Qed.

(** *** Decimal integers *)

Lemma uint_of_bytes_of_uint : forall u,
    uint_of_bytes (bytes_of_uint u) = Some u.
Proof. induction u; simpl; try rewrite IHu; reflexivity. Qed.

Lemma bytes_of_uint_head : forall u,
    u <> Decimal.Nil ->
    exists c t, bytes_of_uint u = c :: t
                /\ Ascii.eqb c "-" = false /\ Ascii.eqb c "+" = false.
Proof.
  intros [] H; try contradiction; simpl; eauto.
Qed.

Lemma Atoi_digits : forall u neg,
    u <> Decimal.Nil ->
    Atoi ((if neg : bool then ["-"%char] else []) ++ bytes_of_uint u)
    = let z := if neg then (- Z.of_uint u)%Z else Z.of_uint u in
      if in_int z then Some z else None.
Proof.
  intros u neg Hu.
  destruct (bytes_of_uint_head Hu) as (c & t & E & Hm & Hp).
  unfold Atoi. destruct neg; cbn [app].
  - change (Ascii.eqb "-" "-") with true. cbv iota.
    rewrite E, <- E, uint_of_bytes_of_uint. reflexivity.
  - rewrite E, Hm, Hp, <- E, uint_of_bytes_of_uint. reflexivity.
Qed.

Lemma itoa_pos : forall p, itoa (Z.pos p) = bytes_of_uint (Pos.to_uint p).
Proof. reflexivity. Qed.

Lemma itoa_neg : forall p,
    itoa (Z.neg p) = "-"%char :: bytes_of_uint (Pos.to_uint p).
Proof. reflexivity. Qed.

Lemma Atoi_itoa : forall z, in_int z = true -> Atoi (itoa z) = Some z.
Proof.
  intros z Hz. pose proof (DecimalZ.of_to z) as Hof.
  destruct z as [|p|p]; [reflexivity| |].
  - change (Z.of_uint (Pos.to_uint p) = Z.pos p) in Hof.
    pose proof (Atoi_digits false (DecimalPos.Unsigned.to_uint_nonnil p))
      as H.
    cbn [app] in H. rewrite itoa_pos, H. cbv zeta. now rewrite Hof, Hz.
  - change (- Z.of_uint (Pos.to_uint p) = Z.neg p)%Z in Hof.
    pose proof (Atoi_digits true (DecimalPos.Unsigned.to_uint_nonnil p))
      as H.
    cbn [app] in H. rewrite itoa_neg, H. cbv zeta. now rewrite Hof, Hz.
Qed.


(** *** Cursors *)


Lemma get_other_params : forall key ps,
    is_cursor_key key = true ->
    forallb (fun kv => negb (is_cursor_key (fst kv))) ps = true ->
    get key ps = [].
Proof.
  intros key ps Hkey; induction ps as [|[k v] ps IH]; simpl; intros H;
    [reflexivity|].
  apply andb_true_iff in H as [Hk Hps].
  destruct (bytes_eqb k key) eqn:E; [|auto].
  apply bytes_eqb_eq in E. subst k. rewrite Hkey in Hk. discriminate.
Qed.

Lemma filter_other_params : forall ps : list (bytes * bytes),
    forallb (fun kv => negb (is_cursor_key (fst kv))) ps = true ->
    filter (fun kv => negb (is_cursor_key (fst kv))) ps = ps.
Proof.
  induction ps as [|kv ps IH]; simpl; intros H; [reflexivity|].
  apply andb_true_iff in H as [Hk Hps]. rewrite Hk, IH; auto.
Qed.

Lemma itoa_nonempty : forall z, in_int z = true -> itoa z <> [].
Proof.
  intros z Hz E. apply Atoi_itoa in Hz. rewrite E in Hz. discriminate.
Qed.

Lemma get_hit : forall key v ps, get key ((key, v) :: ps) = v.
Proof. intros. simpl. now rewrite bytes_eqb_refl. Qed.

Lemma get_miss : forall key k v ps,
    bytes_eqb k key = false -> get key ((k, v) :: ps) = get key ps.
Proof. intros. simpl. now rewrite H. Qed.

Lemma filter_cursor_key : forall k v (ps : list (bytes * bytes)),
    is_cursor_key k = true ->
    filter (fun kv => negb (is_cursor_key (fst kv))) ((k, v) :: ps)
    = filter (fun kv => negb (is_cursor_key (fst kv))) ps.
Proof. intros. simpl. now rewrite H. Qed.

(** *** Sorting by key *)

Lemma bytes_leb_refl : forall a, bytes_leb a a = true.
Proof.
  induction a as [|x a IH]; [reflexivity|]. simpl.
  now rewrite Nat.ltb_irrefl.
Qed.

Lemma bytes_leb_total : forall a b,
    bytes_leb a b = false -> bytes_leb b a = true.
Proof.
  induction a as [|x a IH]; intros [|y b]; simpl; try discriminate; auto.
  destruct (Nat.ltb_spec (nat_of_ascii x) (nat_of_ascii y));
    [discriminate|].
  destruct (Nat.ltb_spec (nat_of_ascii y) (nat_of_ascii x)); auto.
Qed.

Lemma bytes_leb_trans : forall a b c,
    bytes_leb a b = true -> bytes_leb b c = true -> bytes_leb a c = true.
Proof.
  induction a as [|x a IH]; intros [|y b] [|z c]; simpl;
    try discriminate; auto.
  destruct (Nat.ltb_spec (nat_of_ascii x) (nat_of_ascii y)),
    (Nat.ltb_spec (nat_of_ascii y) (nat_of_ascii x)),
    (Nat.ltb_spec (nat_of_ascii y) (nat_of_ascii z)),
    (Nat.ltb_spec (nat_of_ascii z) (nat_of_ascii y)),
    (Nat.ltb_spec (nat_of_ascii x) (nat_of_ascii z)),
    (Nat.ltb_spec (nat_of_ascii z) (nat_of_ascii x));
    try discriminate; try reflexivity; try lia.
  apply IH.
Qed.

Lemma get_insert : forall key kv l,
    get key (insert_by_key kv l) = get key (kv :: l).
Proof.
  intros key [k v] l; induction l as [|[k' v'] l IH]; [reflexivity|].
  cbn [insert_by_key fst]. destruct (bytes_leb k k') eqn:E; [reflexivity|].
  cbn [get] in *. rewrite IH.
  destruct (bytes_eqb k key) eqn:Ek; [|reflexivity].
  destruct (bytes_eqb k' key) eqn:Ek'; [|reflexivity].
  apply bytes_eqb_eq in Ek, Ek'. subst k k'.
  rewrite bytes_leb_refl in E. discriminate.
Qed.

Lemma get_sort : forall key l, get key (sort_by_key l) = get key l.
Proof.
  intros key l; induction l as [|[k v] l IH]; [reflexivity|].
  cbn [sort_by_key]. rewrite get_insert. cbn [get]. now rewrite IH.
Qed.

Lemma insert_front : forall kv l,
    Forall (key_le kv) l -> insert_by_key kv l = kv :: l.
Proof.
  intros kv [|x l] H; [reflexivity|]. cbn [insert_by_key].
  inversion H as [|? ? Hx _]. unfold key_le in Hx. now rewrite Hx.
Qed.

Lemma Forall_insert : forall (P : bytes * bytes -> Prop) kv l,
    P kv -> Forall P l -> Forall P (insert_by_key kv l).
Proof.
  intros P kv l Hkv; induction l as [|x l IH]; intros H; cbn [insert_by_key].
  - now constructor.
  - inversion H as [|? ? Hx Hl]; subst.
    destruct (bytes_leb (fst kv) (fst x)); repeat constructor; auto.
Qed.

Lemma insert_ordered : forall kv l,
    ordered_by_key l -> ordered_by_key (insert_by_key kv l).
Proof.
  unfold ordered_by_key. intros kv l; induction l as [|x l IH]; intros H;
    cbn [insert_by_key].
  - repeat constructor.
  - inversion H as [|? ? Hl Hx]; subst.
    destruct (bytes_leb (fst kv) (fst x)) eqn:E.
    + constructor; [assumption|]. constructor; [exact E|].
      eapply Forall_impl; [|exact Hx]. intros y Hy. unfold key_le in *.
      eapply bytes_leb_trans; eassumption.
    + constructor; [now apply IH|].
      apply Forall_insert; [|assumption].
      unfold key_le. now apply bytes_leb_total.
Qed.

Lemma sort_ordered : forall l, ordered_by_key (sort_by_key l).
Proof.
  induction l as [|kv l IH]; cbn [sort_by_key];
    [constructor | now apply insert_ordered].
Qed.


Lemma Forall_filter : forall (P : bytes * bytes -> Prop) f l,
    Forall P l -> Forall P (filter f l).
Proof.
  intros P f l H. apply Forall_forall. intros x Hx.
  apply filter_In in Hx as [Hx _]. rewrite Forall_forall in H. auto.
Qed.

Lemma filter_insert : forall (f : bytes * bytes -> bool) kv l,
    ordered_by_key l ->
    filter f (insert_by_key kv l)
    = if f kv then insert_by_key kv (filter f l) else filter f l.
Proof.
  unfold ordered_by_key. intros f kv l; induction l as [|x l IH]; intros H.
  - cbn. now destruct (f kv).
  - inversion H as [|? ? Hl Hx]; subst. cbn [insert_by_key].
    destruct (bytes_leb (fst kv) (fst x)) eqn:E.
    + assert (Hall : Forall (key_le kv) (x :: l)).
      { constructor; [exact E|].
        eapply Forall_impl; [|exact Hx]. intros y Hy. unfold key_le in *.
        eapply bytes_leb_trans; eassumption. }
      apply (Forall_filter f) in Hall.
      cbn [filter] in *. destruct (f kv); [|reflexivity].
      symmetry. now apply insert_front.
    + cbn [filter]. rewrite IH by assumption.
      destruct (f x), (f kv); try reflexivity.
      cbn [insert_by_key]. now rewrite E.
Qed.

Lemma filter_sort : forall (f : bytes * bytes -> bool) l,
    filter f (sort_by_key l) = sort_by_key (filter f l).
Proof.
  intros f l; induction l as [|kv l IH]; [reflexivity|].
  cbn [sort_by_key filter]. rewrite filter_insert by apply sort_ordered.
  rewrite IH. now destruct (f kv).
Qed.

Lemma forallb_filter : forall (f g : bytes * bytes -> bool) l,
    forallb f l = true -> forallb f (filter g l) = true.
Proof.
  intros f g l H. apply forallb_forall. intros x Hx.
  apply filter_In in Hx as [Hx _]. rewrite forallb_forall in H. auto.
Qed.


(** Rendering a well-formed cursor and reading the query again gives
    the cursor in canonical form. *)
Lemma cursor_roundtrip : forall c,
    wf_cursor c -> cursor_of_query (encode_cursor c) = Some (canonical c).
Proof.
  intros [pi n ps] [Hn Hps]. cbn [Limit Params] in Hn, Hps.
  unfold cursor_of_query, encode_cursor, encode_values, canonical.
  rewrite parse_query_encode_pairs, !get_sort, filter_sort.
  unfold cursor_pairs. cbn [PageInfo Limit Params].
  pose proof (forallb_filter _ has_value _ Hps) as Hps'.
  assert (Hgl : get (B "limit") (filter has_value ps) = [])
    by (apply get_other_params; [reflexivity|assumption]).
  assert (Hgp : get (B "page_info") (filter has_value ps) = [])
    by (apply get_other_params; [reflexivity|assumption]).
  pose proof (filter_other_params _ Hps') as Hf.
  destruct pi as [|a pi]; destruct (Z.eqb_spec n 0) as [-> | Hn0];
    cbn [app];
    repeat (rewrite filter_cursor_key by reflexivity);
    repeat (rewrite get_hit || rewrite get_miss by reflexivity);
    rewrite ?Hgl, ?Hgp, ?Hf; try reflexivity.
  - destruct (itoa n) as [|d l] eqn:E;
      [now apply itoa_nonempty in E|].
    rewrite <- E, Atoi_itoa by assumption. reflexivity.
  - destruct (itoa n) as [|d l] eqn:E;
      [now apply itoa_nonempty in E|].
    rewrite <- E, Atoi_itoa by assumption. reflexivity.
Qed.







End QueryFacts.

(** ** The Link header *)
Section PaginationFacts.


Lemma entry_cursor_link_entry : forall n url rel m,
    url <> [] -> no_gt url = true -> is_rel rel ->
    entry_cursor (link_entry n url rel m)
    = option_map (pair rel) (parse_cursor url).
Proof.
  intros. unfold entry_cursor.
  rewrite FindStringSubmatch_link_entry by assumption.
  now destruct (parse_cursor url).
Qed.

Lemma entry_cursor_unmatched : forall e,
    FindStringSubmatch linkRegex e = None -> entry_cursor e = None.
Proof. intros e H. unfold entry_cursor. now rewrite H. Qed.

Lemma add_entry_skip : forall p e,
    entry_cursor e = None -> add_entry p e = p.
Proof. intros p e H. unfold add_entry. now rewrite H. Qed.

Lemma add_entry_next : forall p e c,
    entry_cursor e = Some (B "next", c) ->
    add_entry p e = {| NextPageOptions := Some c;
                       PreviousPageOptions := PreviousPageOptions p |}.
Proof. intros p e c H. unfold add_entry. now rewrite H. Qed.


Lemma fold_skip : forall l p,
    (forall e, In e l -> entry_cursor e = None) ->
    fold_left add_entry l p = p.
Proof.
  induction l as [|e l IH]; intros p H; simpl; [reflexivity|].
  rewrite add_entry_skip by (apply H; now left).
  apply IH. intros x Hx. apply H. now right.
Qed.

Lemma extractPagination_fold : forall hdr,
    extractPagination hdr
    = fold_left add_entry (split_on "," hdr) empty_pagination.
Proof. intros [|c hdr]; reflexivity. Qed.

Lemma extractPagination_none : forall hdr,
    no_valid_entry hdr -> extractPagination hdr = empty_pagination.
Proof.
  intros hdr H. rewrite extractPagination_fold. now apply fold_skip.
Qed.

(** One valid [next] entry among entries that yield nothing. *)
Lemma extractPagination_only_next : forall hdr l1 e l2 c,
    split_on "," hdr = l1 ++ e :: l2 ->
    (forall x, In x (l1 ++ l2) -> entry_cursor x = None) ->
    entry_cursor e = Some (B "next", c) ->
    extractPagination hdr
    = {| NextPageOptions := Some c; PreviousPageOptions := None |}.
Proof.
  intros hdr l1 e l2 c Hs Hothers He.
  rewrite extractPagination_fold, Hs, fold_left_app. cbn [fold_left].
  rewrite (fold_skip l1)
    by (intros x Hx; apply Hothers, in_or_app; now left).
  rewrite (add_entry_next _ _ He).
  rewrite fold_skip
    by (intros x Hx; apply Hothers, in_or_app; now right).
  reflexivity.
Qed.









(** C3. A Link header whose only valid entry has the relation [next]
    yields a Pagination with that entry's cursor as [NextPageOptions]
    and no [PreviousPageOptions]; the header of the specification's
    example yields limit 50 and page_info [abc123]. *)
Theorem next_only_header :
  (forall hdr l1 e l2 c,
      split_on "," hdr = l1 ++ e :: l2 ->
      (forall x, In x (l1 ++ l2) -> entry_cursor x = None) ->
      entry_cursor e = Some (B "next", c) ->
      extractPagination hdr
      = {| NextPageOptions := Some c; PreviousPageOptions := None |})
  /\ extractPagination example_header
     = {| NextPageOptions :=
            Some {| PageInfo := B "abc123"; Limit := 50; Params := [] |};
          PreviousPageOptions := None |}.
Proof.
  split; [apply extractPagination_only_next | reflexivity].
Qed.

(** C4. Entries that [linkRegex] does not match are skipped: a header
    with a valid [next] entry among such entries yields exactly the
    cursor of that entry's URL; so does the example with an entry of
    relation [first]. *)
Theorem unmatched_entries_are_skipped :
  (forall hdr l1 l2 n url m c,
      split_on "," hdr = l1 ++ link_entry n url (B "next") m :: l2 ->
      url <> [] -> no_gt url = true -> parse_cursor url = Some c ->
      (forall x, In x (l1 ++ l2) -> FindStringSubmatch linkRegex x = None) ->
      extractPagination hdr
      = {| NextPageOptions := Some c; PreviousPageOptions := None |})
  /\ (FindStringSubmatch linkRegex
        (B "<https://shop.example.com/admin/api/2023-01/products.json?limit=50>; rel="
           ++ [dquote] ++ B "first" ++ [dquote]) = None
      /\ extractPagination example_header_first
         = {| NextPageOptions := Some example_cursor;
              PreviousPageOptions := None |}).
Proof.
  split; [|split; reflexivity].
  intros hdr l1 l2 n url m c Hs Hne Hu Hc Hothers.
  eapply extractPagination_only_next; [exact Hs| |].
  - intros x Hx. now apply entry_cursor_unmatched, Hothers.
  - rewrite entry_cursor_link_entry by (auto; now right).
    now rewrite Hc.
Qed.



End PaginationFacts.

(** ** The cursor as the options of the next request *)
Section ResumeFacts.

Context {ext : Externals}.

Lemma cut_absent : forall sep s, has sep s = false -> cut sep s = (s, []).
Proof.
  intros sep s; induction s as [|c s IH]; simpl; intros H; [reflexivity|].
  apply orb_false_iff in H as [Hc Hs].
  rewrite Ascii.eqb_sym in Hc. now rewrite Hc, IH.
Qed.

Lemma encode_pairs_no_hash : forall ps, has "#" (encode_pairs ps) = false.
Proof.
  unfold encode_pairs, has.
  induction ps as [|[k v] ps IH]; [reflexivity|].
  assert (Hkv : existsb (Ascii.eqb "#")
                  (escape k ++ "="%char :: escape v) = false).
  { rewrite existsb_app. cbn [existsb].
    pose proof (escape_no_hash k) as Hk. pose proof (escape_no_hash v) as Hv.
    unfold has in Hk, Hv. now rewrite Hk, Hv. }
  destruct ps as [|kv ps]; [exact Hkv|].
  change (join "&" (map ?f ((k, v) :: kv :: ps)))
    with (f (k, v) ++ "&"%char :: join "&" (map f (kv :: ps))).
  cbn [fst snd]. rewrite existsb_app, Hkv. cbn [existsb]. exact IH.
Qed.

(** Passing a cursor as the options of the next call: when [query_of]
    writes the options object as the query string of the cursor, the
    URL of the request carries the cursor in canonical form. *)
Lemma request_url_carries_cursor : forall path o c,
    wf_cursor c -> has "?" path = false -> has "#" path = false ->
    query_of o = encode_cursor c ->
    parse_cursor (request_url path (Some o)) = Some (canonical c).
Proof.
  intros path o c Hwf Hq Hh Ho.
  rewrite <- (cursor_roundtrip Hwf). unfold parse_cursor. f_equal.
  unfold request_url, raw_query. rewrite Ho.
  assert (Hall : has "#" (path ++ "?"%char :: encode_cursor c) = false).
  { unfold has. rewrite existsb_app. unfold has in Hh. rewrite Hh.
    cbn [existsb orb]. change (Ascii.eqb "#" "?") with false.
    cbn [orb]. apply encode_pairs_no_hash. }
  destruct (encode_cursor c) as [|a q].
  - rewrite (cut_absent _ _ Hh). cbn [fst].
    now rewrite (cut_absent _ _ Hq).
  - rewrite (cut_absent _ _ Hall). cbn [fst].
    now rewrite cut_app by assumption.
Qed.

End ResumeFacts.

(** ** The services *)
Section ServiceFacts.

Context {ext : Externals}
        {json_product : JSON ProductResource}
        {json_products : JSON ProductsResource}
        {json_payout : JSON PayoutResource}
        {json_payouts : JSON PayoutsResource}
        {json_transactions : JSON PayoutTransactionsResource}.

Lemma run_pbind : forall (W A C : Type) (h : handler W) (p : Prog A)
    (f : A -> Prog C) (w : W),
    run h (pbind p f) w
    = let '(a, w1, log1) := run h p w in
      let '(c, w2, log2) := run h (f a) w1 in
      (c, w2, log1 ++ log2).
Proof.
  intros W A C h p f; induction p as [a | T e k IH]; intros w; simpl.
  - destruct (run h (f a) w) as [[c w2] log2]. reflexivity.
  - destruct (h T e w) as [t w']. rewrite IH.
    destruct (run h (k t) w') as [[a w1] log1].
    destruct (run h (f a) w1) as [[c w2] log2]. reflexivity.
Qed.

Lemma run_ProductServiceOp_ListWithPagination :
  forall (W : Type) (h : handler W) (w : W) (s : ProductServiceOp)
         (options : option Any),
    let e := Client_ListWithPagination (product_client s) json_products
               (B "products.json") {| Products := None |} options in
    run h (ProductServiceOp_ListWithPagination options s) w
    = (list_result Products (fst (h _ e w)), s, snd (h _ e w),
       [existT _ _ e]).
Proof.
  intros. subst e. cbn.
  change ["p"; "r"; "o"; "d"; "u"; "c"; "t"; "s"; "."; "j"; "s"; "o"; "n"]%char
    with (B "products.json").
  destruct (h _ _ w) as [[[r p] [e|]] w']; reflexivity.
Qed.

Lemma run_PayoutsServiceOp_ListWithPagination :
  forall (W : Type) (h : handler W) (w : W) (s : PayoutsServiceOp)
         (options : option Any),
    let e := Client_ListWithPagination (payouts_client s) json_payouts
               (B "shopify_payments/payouts.json") {| Payouts := None |}
               options in
    run h (PayoutsServiceOp_ListWithPagination options s) w
    = (list_result Payouts (fst (h _ e w)), s, snd (h _ e w),
       [existT _ _ e]).
Proof.
  intros. subst e. cbn.
  match goal with |- context [h _ ?ev w] => destruct (h _ ev w) as [[[r p] [e|]] w'] end;
    reflexivity.
Qed.

Lemma Sprintf_transactions_path : forall payoutID : Z,
    Sprintf (B "%s.json?payout_id=%d")
            [OpS payoutTransactionsBasePath; OpD payoutID]
    = B "shopify_payments/balance/transactions.json?payout_id="
        ++ itoa payoutID.
Proof.
  intros. cbn. rewrite app_nil_r. reflexivity.
Qed.

(** C5. When the client's paged list request answers with a non-nil
    error, [ListWithPagination] of the product service and of the payout
    service return nil items, a nil Pagination and that error. *)
Theorem ListWithPagination_error :
  forall (W : Type) (h : handler W) (w : W) (options : option Any)
         (err : Err),
    (forall s : ProductServiceOp,
        snd (fst (h _ (Client_ListWithPagination
                         (product_client s) json_products
                         (B "products.json") {| Products := None |}
                         options) w)) = Some err ->
        fst (fst (fst (run h (ProductServiceOp_ListWithPagination options s)
                           w)))
        = (None, None, Some err))
    /\ (forall s : PayoutsServiceOp,
        snd (fst (h _ (Client_ListWithPagination
                         (payouts_client s) json_payouts
                         (B "shopify_payments/payouts.json")
                         {| Payouts := None |} options) w)) = Some err ->
        fst (fst (fst (run h (PayoutsServiceOp_ListWithPagination options s)
                           w)))
        = (None, None, Some err)).
Proof.
  intros W h w options err. split; intros s Herr.
  - rewrite run_ProductServiceOp_ListWithPagination. cbn [fst snd].
    destruct (h _ _ w) as [[[r p] e] w']. cbn in Herr. subst e.
    reflexivity.
  - rewrite run_PayoutsServiceOp_ListWithPagination. cbn [fst snd].
    destruct (h _ _ w) as [[[r p] e] w']. cbn in Herr. subst e.
    reflexivity.
Qed.

(** C9. [List] is [ListWithPagination] with the Pagination dropped: the
    same calls, the same items and a nil error on success, nil items
    and the same error on failure; for products and for payouts. *)
Theorem List_is_ListWithPagination :
  forall (W : Type) (h : handler W) (w : W) (options : option Any),
    (forall s : ProductServiceOp,
        run h (ProductServiceOp_List options s) w
        = let '(r, s', w', log) :=
            run h (ProductServiceOp_ListWithPagination options s) w in
          (drop_pagination r, s', w', log))
    /\ (forall s : PayoutsServiceOp,
        run h (PayoutsServiceOp_List options s) w
        = let '(r, s', w', log) :=
            run h (PayoutsServiceOp_ListWithPagination options s) w in
          (drop_pagination r, s', w', log)).
Proof.
  intros W h w options. split; intros s.
  - unfold ProductServiceOp_List, bind. rewrite run_pbind.
    destruct (run h (ProductServiceOp_ListWithPagination options s) w)
      as [[[[[items pag] [e|]] s'] w'] log]; cbn; now rewrite app_nil_r.
  - unfold PayoutsServiceOp_List, bind. rewrite run_pbind.
    destruct (run h (PayoutsServiceOp_ListWithPagination options s) w)
      as [[[[[items pag] [e|]] s'] w'] log]; cbn; now rewrite app_nil_r.
Qed.

(** C10. [TransactionsForPayout] issues one paged list request, to
    [shopify_payments/balance/transactions.json?payout_id=<payoutID>]
    with nil options; whatever Pagination comes back is ignored: the
    transactions of that one answer are returned with a nil error, or
    nil transactions with the error of the answer. *)
Theorem TransactionsForPayout_one_page :
  forall (W : Type) (h : handler W) (w : W) (s : PayoutsServiceOp)
         (payoutID : Z),
    let e := Client_ListWithPagination (payouts_client s) json_transactions
               (B "shopify_payments/balance/transactions.json?payout_id="
                  ++ itoa payoutID)
               {| Transactions := None |} None in
    run h (PayoutsServiceOp_TransactionsForPayout payoutID s) w
    = (let '(resource, _, err) := fst (h _ e w) in
       match err with
       | Some _ => (None, err)
       | None => (Transactions resource, None)
       end,
       s, snd (h _ e w), [existT _ _ e]).
Proof.
  intros. subst e. unfold PayoutsServiceOp_TransactionsForPayout.
  rewrite Sprintf_transactions_path. cbn.
  match goal with
  | |- context [h _ ?ev w] => destruct (h _ ev w) as [[[r p] [e|]] w']
  end; reflexivity.
Qed.

(** *** The receiver is never written *)

Lemma preserves_ret : forall (S A : Type) (a : A),
    preserves_receiver (ret (S:=S) a).
Proof. intros S A a W h w s. reflexivity. Qed.

Lemma preserves_field : forall (S A : Type) (proj : S -> A),
    preserves_receiver (field proj).
Proof. intros S A proj W h w s. reflexivity. Qed.

Lemma preserves_call : forall (S T : Type) (e : CallE T),
    preserves_receiver (call (S:=S) e).
Proof.
  intros S T e W h w s. unfold call. simpl.
  destruct (h T e w) as [t w']. reflexivity.
Qed.

Lemma preserves_bind : forall (S A C : Type) (m : Method S A)
    (f : A -> Method S C),
    preserves_receiver m ->
    (forall a, preserves_receiver (f a)) ->
    preserves_receiver (bind m f).
Proof.
  intros S A C m f Hm Hf W h w s. unfold bind. rewrite run_pbind.
  specialize (Hm W h w s).
  destruct (run h (m s) w) as [[[a s1] w1] log1]. cbn in Hm. subst s1.
  cbn [fst snd]. specialize (Hf a W h w1 s).
  destruct (run h (f a s) w1) as [[[c s2] w2] log2]. exact Hf.
Qed.

Ltac frame :=
  repeat first
    [ apply preserves_ret
    | apply preserves_field
    | apply preserves_call
    | apply preserves_bind; [| intros ]
    | match goal with
      | |- preserves_receiver (match ?x with _ => _ end) => destruct x
      end ].

Lemma run_same_answers :
  forall (W1 W2 : Type) (h1 : handler W1) (h2 : handler W2)
         (R : W1 -> W2 -> Prop),
    same_answers h1 h2 R ->
    forall (A : Type) (p : Prog A) (w1 : W1) (w2 : W2),
      R w1 w2 ->
      fst (fst (run h1 p w1)) = fst (fst (run h2 p w2))
      /\ snd (run h1 p w1) = snd (run h2 p w2).
Proof.
  intros W1 W2 h1 h2 R Hsim A p; induction p as [a | T e k IH];
    intros w1 w2 Hw; simpl.
  - split; reflexivity.
  - destruct (Hsim T e w1 w2 Hw) as [Hans Hnext].
    destruct (h1 T e w1) as [t1 w1'], (h2 T e w2) as [t2 w2'].
    cbn [fst snd] in Hans, Hnext. subst t2.
    destruct (IH t1 w1' w2' Hnext) as [Hres Hlog].
    destruct (run h1 (k t1) w1') as [[a1 v1] l1],
             (run h2 (k t1) w2') as [[a2 v2] l2].
    cbn [fst snd] in *. subst. split; reflexivity.
Qed.

(** C7. No method of the product service or of the payout service
    writes its receiver, whose only field is the client reference; and a
    method run against two handlers that give the same answers returns
    the same result, leaves the same receiver and issues the same
    calls. *)
Theorem services_are_stateless :
  (forall options, preserves_receiver (ProductServiceOp_List options))
  /\ (forall options,
         preserves_receiver (ProductServiceOp_ListWithPagination options))
  /\ (forall options, preserves_receiver (ProductServiceOp_Count options))
  /\ (forall id options, preserves_receiver (ProductServiceOp_Get id options))
  /\ (forall product, preserves_receiver (ProductServiceOp_Create product))
  /\ (forall product, preserves_receiver (ProductServiceOp_Update product))
  /\ (forall id, preserves_receiver (ProductServiceOp_Delete id))
  /\ (forall id options,
         preserves_receiver (ProductServiceOp_ListMetafields id options))
  /\ (forall id options,
         preserves_receiver (ProductServiceOp_CountMetafields id options))
  /\ (forall id mid options,
         preserves_receiver (ProductServiceOp_GetMetafield id mid options))
  /\ (forall id metafield,
         preserves_receiver (ProductServiceOp_CreateMetafield id metafield))
  /\ (forall id metafield,
         preserves_receiver (ProductServiceOp_UpdateMetafield id metafield))
  /\ (forall id mid,
         preserves_receiver (ProductServiceOp_DeleteMetafield id mid))
  /\ (forall options, preserves_receiver (PayoutsServiceOp_List options))
  /\ (forall options,
         preserves_receiver (PayoutsServiceOp_ListWithPagination options))
  /\ (forall id options, preserves_receiver (PayoutsServiceOp_Get id options))
  /\ (forall id, preserves_receiver (PayoutsServiceOp_TransactionsForPayout id))
  /\ (forall s : ProductServiceOp,
         s = {| product_client := product_client s |})
  /\ (forall s : PayoutsServiceOp,
         s = {| payouts_client := payouts_client s |})
  /\ (forall (W1 W2 : Type) (h1 : handler W1) (h2 : handler W2)
             (R : W1 -> W2 -> Prop) (S A : Type) (m : Method S A)
             (s : S) (w1 : W1) (w2 : W2),
         same_answers h1 h2 R -> R w1 w2 ->
         fst (fst (run h1 (m s) w1)) = fst (fst (run h2 (m s) w2))
         /\ snd (run h1 (m s) w1) = snd (run h2 (m s) w2)).
Proof.
  repeat match goal with |- _ /\ _ => split end; intros;
    try (unfold ProductServiceOp_List, ProductServiceOp_ListWithPagination,
         ProductServiceOp_Count, ProductServiceOp_Get,
         ProductServiceOp_Create, ProductServiceOp_Update,
         ProductServiceOp_Delete, ProductServiceOp_ListMetafields,
         ProductServiceOp_CountMetafields, ProductServiceOp_GetMetafield,
         ProductServiceOp_CreateMetafield, ProductServiceOp_UpdateMetafield,
         ProductServiceOp_DeleteMetafield, product_metafields,
         PayoutsServiceOp_List, PayoutsServiceOp_ListWithPagination,
         PayoutsServiceOp_Get, PayoutsServiceOp_TransactionsForPayout;
         frame; fail).
  - now destruct s.
  - now destruct s.
  - now apply (run_same_answers H).
Qed.

(** *** The client's paged list request, as specified *)

Lemma no_valid_entry_nil : no_valid_entry [].
Proof. intros e [<- | []]. reflexivity. Qed.

Lemma client_ListWithPagination_ok :
  forall (W : Type) (http_get : bytes -> W -> (Err + Response) * W)
         (R : Type) (J : JSON R) (path : bytes) (resource r : R)
         (options : option Any) (w w' : W) (resp : Response),
    http_get (request_url path options) w = (inr resp, w') ->
    is_2xx (Status resp) = true ->
    unmarshal (Body resp) resource = Some r ->
    client_ListWithPagination http_get J path resource options w
    = ((r, Some (extractPagination (get (B "Link") (Header resp))), None),
       w').
Proof.
  intros W http_get R J path resource r options w w' resp Hget Hst Hdec.
  unfold client_ListWithPagination. now rewrite Hget, Hst, Hdec.
Qed.

(** C2. An empty Link header, and a header none of whose entries is
    valid, parse to a Pagination without cursors; a header that is
    absent reads as the empty one; and a paged list request whose
    response succeeds and decodes then returns the items, that empty
    Pagination and a nil error, through the product service and through
    the payout service. *)
Theorem missing_pagination_is_not_an_error :
  extractPagination [] = empty_pagination
  /\ (forall hdr, no_valid_entry hdr ->
                  extractPagination hdr = empty_pagination)
  /\ (forall headers,
         (forall kv, In kv headers -> fst kv <> B "Link") ->
         get (B "Link") headers = [])
  /\ (forall (W : Type) (http_get : bytes -> W -> (Err + Response) * W)
             (other : handler W) (w w' : W) (resp : Response)
             (options : option Any),
         is_2xx (Status resp) = true ->
         no_valid_entry (get (B "Link") (Header resp)) ->
         (forall (s : ProductServiceOp) (r : ProductsResource),
             http_get (request_url (B "products.json") options) w
             = (inr resp, w') ->
             unmarshal (Body resp) {| Products := None |} = Some r ->
             fst (fst (fst (run (spec_client http_get other)
                                (ProductServiceOp_ListWithPagination options s)
                                w)))
             = (Products r, Some empty_pagination, None))
         /\ (forall (s : PayoutsServiceOp) (r : PayoutsResource),
                http_get (request_url (B "shopify_payments/payouts.json")
                                      options) w
                = (inr resp, w') ->
                unmarshal (Body resp) {| Payouts := None |} = Some r ->
                fst (fst (fst (run (spec_client http_get other)
                                   (PayoutsServiceOp_ListWithPagination
                                      options s) w)))
                = (Payouts r, Some empty_pagination, None))).
Proof.
  split; [reflexivity|].
  split; [apply extractPagination_none|].
  split.
  - induction headers as [|[k v] headers IH]; intros H; [reflexivity|].
    cbn [get]. destruct (bytes_eqb k (B "Link")) eqn:E.
    + apply bytes_eqb_eq in E. exfalso. apply (H (k, v)); [now left|exact E].
    + apply IH. intros kv Hkv. apply H. now right.
  - intros W http_get other w w' resp options Hst Hlink. split.
    + intros s r Hget Hdec.
      rewrite run_ProductServiceOp_ListWithPagination. cbn [fst snd].
      cbn [spec_client].
      erewrite client_ListWithPagination_ok by eassumption.
      cbn [fst list_result]. now rewrite extractPagination_none.
    + intros s r Hget Hdec.
      rewrite run_PayoutsServiceOp_ListWithPagination. cbn [fst snd].
      cbn [spec_client].
      erewrite client_ListWithPagination_ok by eassumption.
      cbn [fst list_result]. now rewrite extractPagination_none.
Qed.

End ServiceFacts.

(** ** Further properties of the pattern *)
Section MoreLinkRegexFacts.

Lemma padded_link_entry : forall k n url rel m j,
    padded k (link_entry n url rel m) j = link_entry (k + n) url rel (m + j).
Proof.
  intros. unfold padded, link_entry.
  rewrite !repeat_app. repeat (rewrite <- app_assoc; cbn [app]).
  reflexivity.
Qed.

Lemma strip_leading_spaces : forall k n t r,
    repeat " "%char k ++ t = repeat " "%char n ++ "<"%char :: r ->
    exists n', n = k + n' /\ t = repeat " "%char n' ++ "<"%char :: r.
Proof.
  induction k as [|k IH]; intros n t r H.
  - exists n. split; [reflexivity | exact H].
  - destruct n as [|n]; cbn in H; [discriminate|].
    injection H as H. apply IH in H as (n' & -> & ->).
    exists n'. split; reflexivity.
Qed.

Lemma strip_trailing_spaces : forall j m t body,
    t ++ repeat " "%char j = body ++ dquote :: repeat " "%char m ->
    exists m', m = m' + j /\ t = body ++ dquote :: repeat " "%char m'.
Proof.
  induction j as [|j IH]; intros m t body H.
  - rewrite app_nil_r in H. exists m. split; [lia | exact H].
  - cbn [repeat] in H. rewrite repeat_cons, app_assoc in H.
    destruct m as [|m].
    + cbn [repeat] in H.
      change (body ++ [dquote]) with (body ++ [dquote]) in H.
      apply app_inj_tail in H as [_ H]. discriminate.
    + cbn [repeat] in H. rewrite repeat_cons in H.
      change (body ++ dquote :: repeat " "%char m ++ [" "%char])
        with (body ++ (dquote :: repeat " "%char m) ++ [" "%char]) in H.
      rewrite app_assoc in H. apply app_inj_tail in H as [H _].
      apply IH in H as (m' & -> & ->). exists m'. split; [lia|reflexivity].
Qed.

Lemma link_entry_body : forall n url rel m,
    link_entry n url rel m
    = (repeat " "%char n ++ "<"%char :: url ++ (B ">; rel=" ++ [dquote]) ++ rel)
        ++ dquote :: repeat " "%char m.
Proof.
  intros. unfold link_entry.
  repeat (rewrite <- app_assoc; cbn [app]). reflexivity.
Qed.

Lemma unpad_link_entry : forall k text j n url rel m,
    padded k text j = link_entry n url rel m ->
    exists n' m', text = link_entry n' url rel m'.
Proof.
  intros k text j n url rel m H. unfold padded in H.
  unfold link_entry in H at 1.
  apply strip_leading_spaces in H as (n' & _ & H).
  fold (link_entry n' url rel m) in H. rewrite link_entry_body in H.
  apply strip_trailing_spaces in H as (m' & _ & H).
  exists n', m'. now rewrite link_entry_body.
Qed.

(** X9. Spaces around a text do not change what the pattern finds in it:
    the text with any number of spaces before and after it matches exactly
    when the text does, with the same URL and the same relation. *)
Theorem surrounding_spaces_are_ignored :
  forall (k j : nat) (text : bytes),
    groups (padded k text j) = groups text.
Proof.
  intros k j text. unfold groups.
  destruct (FindStringSubmatch linkRegex (padded k text j)) as [l|] eqn:Ep.
  - apply FindStringSubmatch_linkRegex_inv
      in Ep as (n & url & rel & m & Ht & Hne & Hu & Hr & ->).
    apply unpad_link_entry in Ht as (n' & m' & ->).
    now rewrite FindStringSubmatch_link_entry.
  - destruct (FindStringSubmatch linkRegex text) as [l|] eqn:Et;
      [|reflexivity].
    apply FindStringSubmatch_linkRegex_inv
      in Et as (n & url & rel & m & -> & Hne & Hu & Hr & ->).
    rewrite padded_link_entry, FindStringSubmatch_link_entry in Ep
      by assumption.
    discriminate.
Qed.

Lemma occurrences_app : forall c a b,
    occurrences c (a ++ b) = occurrences c a + occurrences c b.
Proof. intros. unfold occurrences. now rewrite filter_app, length_app. Qed.

Lemma occurrences_repeat : forall c d n,
    Ascii.eqb c d = false -> occurrences c (repeat d n) = 0.
Proof.
  intros c d n H. induction n as [|n IH]; [reflexivity|].
  unfold occurrences in *. simpl. now rewrite H.
Qed.

Lemma occurrences_no_gt : forall url,
    no_gt url = true -> occurrences ">" url = 0.
Proof.
  induction url as [|c url IH]; [reflexivity|].
  unfold no_gt, occurrences in *. cbn [forallb filter]. intros H.
  apply andb_true_iff in H as [Hc Hu].
  unfold none_of in Hc. cbn [existsb] in Hc. rewrite orb_false_r in Hc.
  rewrite Ascii.eqb_sym. destruct (Ascii.eqb c ">"); [discriminate|auto].
Qed.

Lemma occurrences_link_entry : forall n url rel m,
    no_gt url = true -> is_rel rel ->
    occurrences ">" (link_entry n url rel m) = 1.
Proof.
  intros n url rel m Hu Hr. unfold link_entry.
  change ("<"%char :: url ++ ?t) with (["<"%char] ++ url ++ t).
  rewrite !occurrences_app, !occurrences_repeat by reflexivity.
  rewrite (@occurrences_no_gt url Hu).
  destruct Hr as [-> | ->]; reflexivity.
Qed.

(** X10. A text that the pattern matches holds exactly one [>]; so a
    text put together from two parts that each hold a [>], such as two
    entries joined by a comma, is never matched as a whole. *)
Theorem matched_text_has_one_closing_bracket :
  (forall text l,
      FindStringSubmatch linkRegex text = Some l ->
      occurrences ">" text = 1)
  /\ (forall a b,
         1 <= occurrences ">" a -> 1 <= occurrences ">" b ->
         FindStringSubmatch linkRegex (a ++ b) = None).
Proof.
  assert (H1 : forall text l,
             FindStringSubmatch linkRegex text = Some l ->
             occurrences ">" text = 1).
  { intros text l H.
    apply FindStringSubmatch_linkRegex_inv
      in H as (n & url & rel & m & -> & Hne & Hu & Hr & ->).
    now apply occurrences_link_entry. }
  split; [exact H1|].
  intros a b Ha Hb.
  destruct (FindStringSubmatch linkRegex (a ++ b)) as [l|] eqn:E;
    [|reflexivity].
  apply H1 in E. rewrite occurrences_app in E. lia.
Qed.

(** X11. The pattern is unambiguous: at any offset of any text the
    backtracking matcher finds at most one way to match it, so the
    submatches do not depend on the order in which alternatives are
    tried. *)
Theorem linkRegex_is_unambiguous :
  forall (a : nat) (text : bytes),
    length (rmatch linkRegex (MState a text [])) <= 1.
Proof.
  intros a text.
  destruct (rmatch linkRegex (MState a text [])) as [|st tl] eqn:E;
    [simpl; lia|].
  assert (Hin : In st (rmatch linkRegex (MState a text [])))
    by (rewrite E; now left).
  apply in_rmatch_linkRegex
    in Hin as (-> & n & url & rel & m & -> & Hne & Hu & Hr & _).
  rewrite rmatch_link_entry in E by assumption.
  injection E as _ <-. simpl. lia.
Qed.

Lemma has_repeat : forall c d n,
    Ascii.eqb c d = false -> has c (repeat d n) = false.
Proof.
  intros c d n H. induction n as [|n IH]; [reflexivity|].
  unfold has in *. simpl. now rewrite H.
Qed.

Lemma has_no_gt : forall url, no_gt url = true -> has ">" url = false.
Proof.
  induction url as [|c url IH]; [reflexivity|].
  unfold no_gt, has in *. cbn [forallb existsb]. intros H.
  apply andb_true_iff in H as [Hc Hu].
  unfold none_of in Hc. cbn [existsb] in Hc. rewrite orb_false_r in Hc.
  rewrite Ascii.eqb_sym. destruct (Ascii.eqb c ">"); [discriminate|auto].
Qed.

(** X12. On a matching text the captures can be read off by cutting: the
    URL is what lies between the first [<] and the first [>], and the
    relation is what follows the seven bytes after that [>] up to the
    next double quote. *)
Theorem submatches_by_cutting :
  forall text whole url rel,
    FindStringSubmatch linkRegex text = Some [whole; url; rel] ->
    whole = text
    /\ url = fst (cut ">" (snd (cut "<" text)))
    /\ rel = fst (cut dquote
                      (skipn 7 (snd (cut ">" (snd (cut "<" text)))))).
Proof.
  intros text whole url rel H.
  apply FindStringSubmatch_linkRegex_inv
    in H as (n & u & r & m & -> & Hne & Hu & Hr & E).
  injection E as Ew Eu Er. subst whole url rel. split; [reflexivity|].
  unfold link_entry.
  rewrite cut_app by (apply has_repeat; reflexivity). cbn [snd].
  change (u ++ (B ">; rel=" ++ [dquote]) ++ r ++ [dquote]
            ++ repeat " "%char m)
    with (u ++ ">"%char :: (B "; rel=" ++ [dquote])
            ++ r ++ dquote :: repeat " "%char m).
  rewrite cut_app by (now apply has_no_gt). cbn [fst snd].
  split; [reflexivity|].
  change (skipn 7 ((B "; rel=" ++ [dquote]) ++ r ++ dquote :: repeat " "%char m))
    with (r ++ dquote :: repeat " "%char m).
  rewrite cut_app; [reflexivity|].
  destruct Hr as [-> | ->]; reflexivity.
Qed.

End MoreLinkRegexFacts.

(** ** Further properties of the services *)
Section MoreServiceFacts.

Context {ext : Externals}
        {json_product : JSON ProductResource}
        {json_products : JSON ProductsResource}
        {json_payout : JSON PayoutResource}
        {json_payouts : JSON PayoutsResource}
        {json_transactions : JSON PayoutTransactionsResource}.

(** Running a method whose first step is a call: decide the answer. *)
Ltac answer h :=
  match goal with
  | |- context [h ?T ?e ?w] =>
      let t := fresh "t" in
      let w' := fresh "w'" in
      destruct (h T e w) as [t w'];
      repeat match goal with
             | x : (_ * _)%type |- _ => destruct x
             | x : error |- _ => destruct x
             | x : option Err |- _ => destruct x
             end
  end.

Ltac method :=
  intros; unfold outcome, calls; cbn;
  match goal with h : handler _ |- _ => try answer h end;
  try reflexivity.

(** X1. Every method of the two services issues exactly one call, and the
    error it returns is the error of that call's answer: nil when the
    answer's error is nil, the same error otherwise. *)
Theorem one_call_and_its_error :
  forall (W : Type) (h : handler W) (w : W),
    (forall o s, answer_errors h (ProductServiceOp_List o s) w
                 = [snd (outcome h (ProductServiceOp_List o) s w)])
    /\ (forall o s,
           answer_errors h (ProductServiceOp_ListWithPagination o s) w
           = [snd (outcome h (ProductServiceOp_ListWithPagination o) s w)])
    /\ (forall o s, answer_errors h (ProductServiceOp_Count o s) w
                    = [snd (outcome h (ProductServiceOp_Count o) s w)])
    /\ (forall id o s, answer_errors h (ProductServiceOp_Get id o s) w
                       = [snd (outcome h (ProductServiceOp_Get id o) s w)])
    /\ (forall p s, answer_errors h (ProductServiceOp_Create p s) w
                    = [snd (outcome h (ProductServiceOp_Create p) s w)])
    /\ (forall p s, answer_errors h (ProductServiceOp_Update p s) w
                    = [snd (outcome h (ProductServiceOp_Update p) s w)])
    /\ (forall id s, answer_errors h (ProductServiceOp_Delete id s) w
                     = [outcome h (ProductServiceOp_Delete id) s w])
    /\ (forall id o s,
           answer_errors h (ProductServiceOp_ListMetafields id o s) w
           = [snd (outcome h (ProductServiceOp_ListMetafields id o) s w)])
    /\ (forall id o s,
           answer_errors h (ProductServiceOp_CountMetafields id o s) w
           = [snd (outcome h (ProductServiceOp_CountMetafields id o) s w)])
    /\ (forall id mid o s,
           answer_errors h (ProductServiceOp_GetMetafield id mid o s) w
           = [snd (outcome h (ProductServiceOp_GetMetafield id mid o) s w)])
    /\ (forall id m s,
           answer_errors h (ProductServiceOp_CreateMetafield id m s) w
           = [snd (outcome h (ProductServiceOp_CreateMetafield id m) s w)])
    /\ (forall id m s,
           answer_errors h (ProductServiceOp_UpdateMetafield id m s) w
           = [snd (outcome h (ProductServiceOp_UpdateMetafield id m) s w)])
    /\ (forall id mid s,
           answer_errors h (ProductServiceOp_DeleteMetafield id mid s) w
           = [outcome h (ProductServiceOp_DeleteMetafield id mid) s w])
    /\ (forall o s, answer_errors h (PayoutsServiceOp_List o s) w
                    = [snd (outcome h (PayoutsServiceOp_List o) s w)])
    /\ (forall o s,
           answer_errors h (PayoutsServiceOp_ListWithPagination o s) w
           = [snd (outcome h (PayoutsServiceOp_ListWithPagination o) s w)])
    /\ (forall id o s, answer_errors h (PayoutsServiceOp_Get id o s) w
                       = [snd (outcome h (PayoutsServiceOp_Get id o) s w)])
    /\ (forall id s,
           answer_errors h (PayoutsServiceOp_TransactionsForPayout id s) w
           = [snd (outcome h (PayoutsServiceOp_TransactionsForPayout id)
                           s w)]).
Proof.
  intros W h w. repeat split; method.
Qed.

(** X2. Every call a method issues is made on the client its receiver
    holds: the client methods on that client itself, the metafield
    methods on a service built with it; no other client is ever used. *)
Theorem calls_use_the_receivers_client :
  forall (W : Type) (h : handler W) (w : W),
    (forall o s, log_clients (calls h (ProductServiceOp_List o) s w)
                 = [product_client s])
    /\ (forall o s,
           log_clients (calls h (ProductServiceOp_ListWithPagination o) s w)
           = [product_client s])
    /\ (forall o s, log_clients (calls h (ProductServiceOp_Count o) s w)
                    = [product_client s])
    /\ (forall id o s, log_clients (calls h (ProductServiceOp_Get id o) s w)
                       = [product_client s])
    /\ (forall p s, log_clients (calls h (ProductServiceOp_Create p) s w)
                    = [product_client s])
    /\ (forall p s, log_clients (calls h (ProductServiceOp_Update p) s w)
                    = [product_client s])
    /\ (forall id s, log_clients (calls h (ProductServiceOp_Delete id) s w)
                     = [product_client s])
    /\ (forall id o s,
           log_clients (calls h (ProductServiceOp_ListMetafields id o) s w)
           = [product_client s])
    /\ (forall id o s,
           log_clients (calls h (ProductServiceOp_CountMetafields id o) s w)
           = [product_client s])
    /\ (forall id mid o s,
           log_clients (calls h (ProductServiceOp_GetMetafield id mid o) s w)
           = [product_client s])
    /\ (forall id m s,
           log_clients (calls h (ProductServiceOp_CreateMetafield id m) s w)
           = [product_client s])
    /\ (forall id m s,
           log_clients (calls h (ProductServiceOp_UpdateMetafield id m) s w)
           = [product_client s])
    /\ (forall id mid s,
           log_clients (calls h (ProductServiceOp_DeleteMetafield id mid) s w)
           = [product_client s])
    /\ (forall o s, log_clients (calls h (PayoutsServiceOp_List o) s w)
                    = [payouts_client s])
    /\ (forall o s,
           log_clients (calls h (PayoutsServiceOp_ListWithPagination o) s w)
           = [payouts_client s])
    /\ (forall id o s, log_clients (calls h (PayoutsServiceOp_Get id o) s w)
                       = [payouts_client s])
    /\ (forall id s,
           log_clients (calls h (PayoutsServiceOp_TransactionsForPayout id)
                              s w)
           = [payouts_client s]).
Proof.
  intros W h w. repeat split; method.
Qed.

(** X3. Each metafield method of the product service calls a metafield
    service for the resource [products] and the product id it was given,
    and nothing else. *)
Theorem metafield_methods_target :
  forall (W : Type) (h : handler W) (w : W) (s : ProductServiceOp) (id : Z),
    let target := Some {| metafield_client := product_client s;
                          metafield_resource := B "products";
                          metafield_resourceID := id |} in
    (forall o,
        log_metafields (calls h (ProductServiceOp_ListMetafields id o) s w)
        = [target])
    /\ (forall o,
           log_metafields (calls h (ProductServiceOp_CountMetafields id o) s w)
           = [target])
    /\ (forall mid o,
           log_metafields (calls h (ProductServiceOp_GetMetafield id mid o)
                                 s w)
           = [target])
    /\ (forall m,
           log_metafields (calls h (ProductServiceOp_CreateMetafield id m) s w)
           = [target])
    /\ (forall m,
           log_metafields (calls h (ProductServiceOp_UpdateMetafield id m) s w)
           = [target])
    /\ (forall mid,
           log_metafields (calls h (ProductServiceOp_DeleteMetafield id mid)
                                 s w)
           = [target]).
Proof.
  intros W h w s id target. subst target. repeat split; method.
Qed.


(** *** The paths requested *)

Lemma bytes_of_uint_inj : forall u v,
    bytes_of_uint u = bytes_of_uint v -> u = v.
Proof.
  induction u; destruct v; simpl; intros H;
    try discriminate; try reflexivity;
    injection H as H; f_equal; auto.
Qed.

Lemma bytes_of_uint_digit : forall u,
    u <> Decimal.Nil ->
    exists c t, bytes_of_uint u = c :: t /\ is_digit c = true.
Proof. intros [] H; try contradiction; simpl; eauto. Qed.

Lemma bytes_of_uint_no_sign : forall u t,
    bytes_of_uint u <> "-"%char :: t.
Proof. intros [] t; simpl; discriminate. Qed.

Lemma itoa_inj : forall a b, itoa a = itoa b -> a = b.
Proof.
  intros a b H. apply DecimalZ.to_int_inj. unfold itoa in H.
  destruct (Z.to_int a) as [u|u], (Z.to_int b) as [v|v].
  - f_equal. now apply bytes_of_uint_inj.
  - exfalso. eapply bytes_of_uint_no_sign; eassumption.
  - exfalso. symmetry in H. eapply bytes_of_uint_no_sign; eassumption.
  - injection H as H. f_equal. now apply bytes_of_uint_inj.
Qed.

Lemma itoa_head : forall z,
    exists c t, itoa z = c :: t /\ (is_digit c = true \/ c = "-"%char).
Proof.
  intros [|p|p].
  - exists "0"%char, []. split; [reflexivity | now left].
  - rewrite itoa_pos.
    destruct (bytes_of_uint_digit (DecimalPos.Unsigned.to_uint_nonnil p))
      as (c & t & E & Hc).
    exists c, t. split; [assumption | now left].
  - rewrite itoa_neg. eexists _, _. split; [reflexivity | now right].
Qed.

Lemma paths_product_Get : forall (W : Type) (h : handler W) w id o s,
    log_paths (calls h (ProductServiceOp_Get id o) s w)
    = [Some (product_path id)].
Proof. method. Qed.

Lemma paths_product_Update : forall (W : Type) (h : handler W) w p s,
    log_paths (calls h (ProductServiceOp_Update p) s w)
    = [Some (product_path (Product_ID p))].
Proof. method. Qed.

Lemma paths_product_Delete : forall (W : Type) (h : handler W) w id s,
    log_paths (calls h (ProductServiceOp_Delete id) s w)
    = [Some (product_path id)].
Proof. method. Qed.

Lemma paths_product_Create : forall (W : Type) (h : handler W) w p s,
    log_paths (calls h (ProductServiceOp_Create p) s w)
    = [Some (B "products.json")].
Proof. method. Qed.

Lemma paths_product_ListWithPagination :
  forall (W : Type) (h : handler W) w o s,
    log_paths (calls h (ProductServiceOp_ListWithPagination o) s w)
    = [Some (B "products.json")].
Proof. method. Qed.

Lemma paths_product_List : forall (W : Type) (h : handler W) w o s,
    log_paths (calls h (ProductServiceOp_List o) s w)
    = [Some (B "products.json")].
Proof. method. Qed.

Lemma paths_product_Count : forall (W : Type) (h : handler W) w o s,
    log_paths (calls h (ProductServiceOp_Count o) s w)
    = [Some (B "products/count.json")].
Proof. method. Qed.

Lemma paths_payouts_Get : forall (W : Type) (h : handler W) w id o s,
    log_paths (calls h (PayoutsServiceOp_Get id o) s w)
    = [Some (payout_path id)].
Proof. method. Qed.

Lemma paths_payouts_ListWithPagination :
  forall (W : Type) (h : handler W) w o s,
    log_paths (calls h (PayoutsServiceOp_ListWithPagination o) s w)
    = [Some (B "shopify_payments/payouts.json")].
Proof. method. Qed.

Lemma paths_payouts_List : forall (W : Type) (h : handler W) w o s,
    log_paths (calls h (PayoutsServiceOp_List o) s w)
    = [Some (B "shopify_payments/payouts.json")].
Proof. method. Qed.

Lemma paths_payouts_Transactions : forall (W : Type) (h : handler W) w id s,
    log_paths (calls h (PayoutsServiceOp_TransactionsForPayout id) s w)
    = [Some (transactions_path id)].
Proof.
  intros. unfold calls, PayoutsServiceOp_TransactionsForPayout.
  rewrite Sprintf_transactions_path. cbn. answer h; reflexivity.
Qed.

Lemma one_path_inj : forall x y : bytes, [Some x] = [Some y] -> x = y.
Proof. intros x y H. now injection H. Qed.

Lemma product_path_inj : forall a b, product_path a = product_path b -> a = b.
Proof.
  unfold product_path. intros a b H. apply app_inv_head in H.
  apply app_inv_tail in H. now apply itoa_inj.
Qed.

Lemma payout_path_inj : forall a b, payout_path a = payout_path b -> a = b.
Proof.
  unfold payout_path. intros a b H. apply app_inv_head in H.
  apply app_inv_tail in H. now apply itoa_inj.
Qed.

Lemma transactions_path_inj : forall a b,
    transactions_path a = transactions_path b -> a = b.
Proof.
  unfold transactions_path. intros a b H. apply app_inv_head in H.
  now apply itoa_inj.
Qed.

(** X4. The methods that work on one product address the same path:
    [Get], [Update] and [Delete] of the product with a given id all
    request [products/<id>.json] with the id in decimal, whatever the
    handler answers; [Create] requests the path that the two list methods
    read. *)
Theorem product_methods_share_paths :
  forall (W : Type) (h : handler W) (w : W) (s : ProductServiceOp)
         (p : Product) (o : option Any),
    log_paths (calls h (ProductServiceOp_Update p) s w)
    = log_paths (calls h (ProductServiceOp_Get (Product_ID p) o) s w)
    /\ log_paths (calls h (ProductServiceOp_Delete (Product_ID p)) s w)
       = log_paths (calls h (ProductServiceOp_Get (Product_ID p) o) s w)
    /\ log_paths (calls h (ProductServiceOp_Get (Product_ID p) o) s w)
       = [Some (B "products/" ++ itoa (Product_ID p) ++ B ".json")]
    /\ log_paths (calls h (ProductServiceOp_Create p) s w)
       = log_paths (calls h (ProductServiceOp_ListWithPagination o) s w)
    /\ log_paths (calls h (ProductServiceOp_List o) s w)
       = log_paths (calls h (ProductServiceOp_ListWithPagination o) s w).
Proof.
  intros. rewrite paths_product_Update, paths_product_Delete,
    paths_product_Get, paths_product_Create,
    paths_product_ListWithPagination, paths_product_List.
  repeat split; reflexivity.
Qed.

(** X5. Different ids are never sent to the same path: two [Get] (or
    [Delete]) requests of the product service, two [Get] requests of the
    payout service, or two [TransactionsForPayout] requests that use the
    same path were given the same id. *)
Theorem paths_determine_the_id :
  forall (W : Type) (h1 h2 : handler W) (w1 w2 : W) (a b : Z),
    (forall o1 o2 s1 s2,
        log_paths (calls h1 (ProductServiceOp_Get a o1) s1 w1)
        = log_paths (calls h2 (ProductServiceOp_Get b o2) s2 w2) -> a = b)
    /\ (forall s1 s2,
           log_paths (calls h1 (ProductServiceOp_Delete a) s1 w1)
           = log_paths (calls h2 (ProductServiceOp_Delete b) s2 w2) -> a = b)
    /\ (forall o1 o2 s1 s2,
           log_paths (calls h1 (PayoutsServiceOp_Get a o1) s1 w1)
           = log_paths (calls h2 (PayoutsServiceOp_Get b o2) s2 w2) -> a = b)
    /\ (forall s1 s2,
           log_paths (calls h1 (PayoutsServiceOp_TransactionsForPayout a)
                            s1 w1)
           = log_paths (calls h2 (PayoutsServiceOp_TransactionsForPayout b)
                              s2 w2) -> a = b).
Proof.
  intros W h1 h2 w1 w2 a b. repeat split; intros.
  - rewrite !paths_product_Get in H.
    now apply product_path_inj, one_path_inj.
  - rewrite !paths_product_Delete in H.
    now apply product_path_inj, one_path_inj.
  - rewrite !paths_payouts_Get in H.
    now apply payout_path_inj, one_path_inj.
  - rewrite !paths_payouts_Transactions in H.
    now apply transactions_path_inj, one_path_inj.
Qed.

Lemma product_path_not_count : forall id,
    product_path id <> B "products/count.json".
Proof.
  intros id H. unfold product_path in H.
  destruct (itoa_head id) as (c & t & E & Hc). rewrite E in H.
  cbn in H. injection H as Hc' _. subst c.
  destruct Hc as [Hc | Hc]; discriminate.
Qed.

Lemma product_path_not_list : forall id,
    product_path id <> B "products.json".
Proof. intros id H. unfold product_path in H. cbn in H. discriminate. Qed.

Lemma payout_path_not_list : forall id,
    payout_path id <> B "shopify_payments/payouts.json".
Proof. intros id H. unfold payout_path in H. cbn in H. discriminate. Qed.

(** X6. No id makes [Get] or [Delete] of the product service request the
    path of [Count] or of the list methods, and no id makes [Get] of the
    payout service request the path of its list methods. *)
Theorem id_paths_avoid_collection_paths :
  forall (W : Type) (h1 h2 : handler W) (w1 w2 : W) (id : Z),
    (forall o1 o2 s1 s2,
        log_paths (calls h1 (ProductServiceOp_Get id o1) s1 w1)
        <> log_paths (calls h2 (ProductServiceOp_Count o2) s2 w2))
    /\ (forall o1 o2 s1 s2,
           log_paths (calls h1 (ProductServiceOp_Get id o1) s1 w1)
           <> log_paths (calls h2 (ProductServiceOp_ListWithPagination o2)
                               s2 w2))
    /\ (forall o2 s1 s2,
           log_paths (calls h1 (ProductServiceOp_Delete id) s1 w1)
           <> log_paths (calls h2 (ProductServiceOp_Count o2) s2 w2))
    /\ (forall o2 s1 s2,
           log_paths (calls h1 (ProductServiceOp_Delete id) s1 w1)
           <> log_paths (calls h2 (ProductServiceOp_ListWithPagination o2)
                               s2 w2))
    /\ (forall o1 o2 s1 s2,
           log_paths (calls h1 (PayoutsServiceOp_Get id o1) s1 w1)
           <> log_paths (calls h2 (PayoutsServiceOp_ListWithPagination o2)
                               s2 w2)).
Proof.
  intros W h1 h2 w1 w2 id. repeat split; intros;
    rewrite ?paths_product_Get, ?paths_product_Delete, ?paths_product_Count,
      ?paths_product_ListWithPagination, ?paths_payouts_Get,
      ?paths_payouts_ListWithPagination;
    intros H; apply one_path_inj in H.
  - now apply product_path_not_count in H.
  - now apply product_path_not_list in H.
  - now apply product_path_not_count in H.
  - now apply product_path_not_list in H.
  - now apply payout_path_not_list in H.
Qed.


(** *** What is sent and what is returned *)

(** X7. The methods on one resource return the product (or payout) the
    client decoded into the resource together with the client's error,
    both as they are: unlike the list methods they do not clear the value
    when the error is non-nil.  [Create] and [Update] send the product
    they were given, wrapped in a [ProductResource], and a fresh resource
    to decode into. *)
Theorem resource_and_error_returned_as_answered :
  forall (W : Type) (h : handler W) (w : W),
    (forall id o s,
        outcome h (ProductServiceOp_Get id o) s w
        = let a := fst (h _ (Client_Get (product_client s) json_product
                               (product_path id)
                               {| ProductResource_Product := None |} o) w) in
          (ProductResource_Product (fst a), snd a))
    /\ (forall p s,
           outcome h (ProductServiceOp_Create p) s w
           = let a := fst (h _ (Client_Post (product_client s) json_product
                                  (B "products.json")
                                  {| ProductResource_Product := Some p |}
                                  {| ProductResource_Product := None |}) w) in
             (ProductResource_Product (fst a), snd a))
    /\ (forall p s,
           outcome h (ProductServiceOp_Update p) s w
           = let a := fst (h _ (Client_Put (product_client s) json_product
                                  (product_path (Product_ID p))
                                  {| ProductResource_Product := Some p |}
                                  {| ProductResource_Product := None |}) w) in
             (ProductResource_Product (fst a), snd a))
    /\ (forall id o s,
           outcome h (PayoutsServiceOp_Get id o) s w
           = let a := fst (h _ (Client_Get (payouts_client s) json_payout
                                  (payout_path id)
                                  {| PayoutResource_Payout := None |} o) w) in
             (PayoutResource_Payout (fst a), snd a)).
Proof.
  intros W h w. repeat split; intros;
    unfold outcome, product_path, payout_path; cbn; answer h; reflexivity.
Qed.

(** X8. When the client's paged list request answers with a nil error,
    [ListWithPagination] returns the items the client decoded and the
    Pagination the client returned, unchanged, with a nil error; for
    products and for payouts. *)
Theorem ListWithPagination_success :
  forall (W : Type) (h : handler W) (w w' : W) (o : option Any)
         (pagination : option Pagination),
    (forall (s : ProductServiceOp) (r : ProductsResource),
        h _ (Client_ListWithPagination (product_client s) json_products
               (B "products.json") {| Products := None |} o) w
        = ((r, pagination, None), w') ->
        outcome h (ProductServiceOp_ListWithPagination o) s w
        = (Products r, pagination, None))
    /\ (forall (s : PayoutsServiceOp) (r : PayoutsResource),
           h _ (Client_ListWithPagination (payouts_client s) json_payouts
                  (B "shopify_payments/payouts.json") {| Payouts := None |}
                  o) w
           = ((r, pagination, None), w') ->
           outcome h (PayoutsServiceOp_ListWithPagination o) s w
           = (Payouts r, pagination, None)).
Proof.
  intros W h w w' o pagination. split; intros s r H; unfold outcome.
  - rewrite run_ProductServiceOp_ListWithPagination. cbn [fst].
    now rewrite H.
  - rewrite run_PayoutsServiceOp_ListWithPagination. cbn [fst].
    now rewrite H.
Qed.


(** X13. What a method requests does not depend on what is answered: run
    against any two handlers, in any two states of the outside world, a
    method issues the same calls with the same arguments. *)
Theorem requests_do_not_depend_on_answers :
  forall (W1 W2 : Type) (h1 : handler W1) (h2 : handler W2)
         (w1 : W1) (w2 : W2),
    (forall o s, calls h1 (ProductServiceOp_List o) s w1
                 = calls h2 (ProductServiceOp_List o) s w2)
    /\ (forall o s, calls h1 (ProductServiceOp_ListWithPagination o) s w1
                    = calls h2 (ProductServiceOp_ListWithPagination o) s w2)
    /\ (forall o s, calls h1 (ProductServiceOp_Count o) s w1
                    = calls h2 (ProductServiceOp_Count o) s w2)
    /\ (forall id o s, calls h1 (ProductServiceOp_Get id o) s w1
                       = calls h2 (ProductServiceOp_Get id o) s w2)
    /\ (forall p s, calls h1 (ProductServiceOp_Create p) s w1
                    = calls h2 (ProductServiceOp_Create p) s w2)
    /\ (forall p s, calls h1 (ProductServiceOp_Update p) s w1
                    = calls h2 (ProductServiceOp_Update p) s w2)
    /\ (forall id s, calls h1 (ProductServiceOp_Delete id) s w1
                     = calls h2 (ProductServiceOp_Delete id) s w2)
    /\ (forall id o s, calls h1 (ProductServiceOp_ListMetafields id o) s w1
                       = calls h2 (ProductServiceOp_ListMetafields id o) s w2)
    /\ (forall id o s, calls h1 (ProductServiceOp_CountMetafields id o) s w1
                       = calls h2 (ProductServiceOp_CountMetafields id o) s w2)
    /\ (forall id mid o s,
           calls h1 (ProductServiceOp_GetMetafield id mid o) s w1
           = calls h2 (ProductServiceOp_GetMetafield id mid o) s w2)
    /\ (forall id m s, calls h1 (ProductServiceOp_CreateMetafield id m) s w1
                       = calls h2 (ProductServiceOp_CreateMetafield id m) s w2)
    /\ (forall id m s, calls h1 (ProductServiceOp_UpdateMetafield id m) s w1
                       = calls h2 (ProductServiceOp_UpdateMetafield id m) s w2)
    /\ (forall id mid s,
           calls h1 (ProductServiceOp_DeleteMetafield id mid) s w1
           = calls h2 (ProductServiceOp_DeleteMetafield id mid) s w2)
    /\ (forall o s, calls h1 (PayoutsServiceOp_List o) s w1
                    = calls h2 (PayoutsServiceOp_List o) s w2)
    /\ (forall o s, calls h1 (PayoutsServiceOp_ListWithPagination o) s w1
                    = calls h2 (PayoutsServiceOp_ListWithPagination o) s w2)
    /\ (forall id o s, calls h1 (PayoutsServiceOp_Get id o) s w1
                       = calls h2 (PayoutsServiceOp_Get id o) s w2)
    /\ (forall id s,
           calls h1 (PayoutsServiceOp_TransactionsForPayout id) s w1
           = calls h2 (PayoutsServiceOp_TransactionsForPayout id) s w2).
Proof.
  intros W1 W2 h1 h2 w1 w2.
  repeat split; intros; unfold calls; cbn; answer h1; answer h2; reflexivity.
Qed.

End MoreServiceFacts.

(** * Worked instances *)

#[local] Existing Instance demo_ext.
#[local] Existing Instance demo_json.

Lemma linkRegex_matches_exactly_witness :
  FindStringSubmatch linkRegex (link_entry 1 (B "u") (B "next") 2)
  = Some [link_entry 1 (B "u") (B "next") 2; B "u"; B "next"].
Proof.
  apply (proj2 (proj1 linkRegex_matches_exactly _ _)).
  exists 1, (B "u"), (B "next"), 2.
  repeat split; try reflexivity; [discriminate | now right].
Defined.

Lemma next_only_header_witness :
  split_on "," example_header = [] ++ example_header :: []
  /\ entry_cursor example_header = Some (B "next", example_cursor)
  /\ extractPagination example_header
     = {| NextPageOptions := Some example_cursor;
          PreviousPageOptions := None |}.
Proof.
  split; [reflexivity|]. split; [reflexivity|].
  apply (proj1 next_only_header example_header [] example_header []
               example_cursor).
  - reflexivity.
  - intros x [].
  - reflexivity.
Defined.

Lemma unmatched_entries_are_skipped_witness :
  split_on "," example_header_first
  = [B "<https://shop.example.com/admin/api/2023-01/products.json?limit=50>; rel="
       ++ [dquote] ++ B "first" ++ [dquote]]
      ++ link_entry 1 example_url (B "next") 0 :: []
  /\ parse_cursor example_url = Some example_cursor
  /\ extractPagination example_header_first
     = {| NextPageOptions := Some example_cursor;
          PreviousPageOptions := None |}.
Proof.
  split; [reflexivity|]. split; [reflexivity|].
  apply (proj1 unmatched_entries_are_skipped example_header_first
               [B "<https://shop.example.com/admin/api/2023-01/products.json?limit=50>; rel="
                  ++ [dquote] ++ B "first" ++ [dquote]]
               [] 1 example_url 0 example_cursor).
  - reflexivity.
  - discriminate.
  - reflexivity.
  - reflexivity.
  - intros x [<- | []]. reflexivity.
Defined.


Lemma ListWithPagination_error_witness :
  fst (fst (fst (run refuse
                     (ProductServiceOp_ListWithPagination None demo_products)
                     tt)))
  = (None, None, Some (TransportError (B "connection refused"))).
Proof.
  apply (proj1 (ListWithPagination_error refuse tt None
                  (TransportError (B "connection refused")))).
  reflexivity.
Defined.

Lemma missing_pagination_is_not_an_error_witness :
  fst (fst (fst (run (spec_client plain_ok refuse)
                     (ProductServiceOp_ListWithPagination None demo_products)
                     tt)))
  = (None, Some empty_pagination, None).
Proof.
  destruct (missing_pagination_is_not_an_error
              (ext := demo_ext) (json_products := demo_json _)
              (json_payouts := demo_json _))
    as (_ & _ & _ & H).
  destruct (H unit plain_ok refuse tt tt
              {| Status := 200; Header := []; Body := [] |} None) as [Hp _].
  - reflexivity.
  - intros e [<- | []]. reflexivity.
  - apply (Hp demo_products {| Products := None |}); reflexivity.
Defined.

Lemma services_are_stateless_witness :
  fst (fst (run refuse (ProductServiceOp_List None demo_products) tt))
  = fst (fst (run refuse_counting (ProductServiceOp_List None demo_products)
                  7))
  /\ snd (run refuse (ProductServiceOp_List None demo_products) tt)
     = snd (run refuse_counting (ProductServiceOp_List None demo_products) 7).
Proof.
  destruct (services_are_stateless
              (ext := demo_ext) (json_product := demo_json _)
              (json_products := demo_json _) (json_payout := demo_json _)
              (json_payouts := demo_json _)
              (json_transactions := demo_json _))
    as (_ & _ & _ & _ & _ & _ & _ & _ & _ & _ & _ & _ & _ & _ & _ & _ & _
        & _ & _ & H).
  apply (H unit nat refuse refuse_counting (fun _ _ => True) _ _
           (ProductServiceOp_List None) demo_products tt 7).
  - intros T e w1 w2 _. split; [destruct e; reflexivity | exact I].
  - exact I.
Defined.

Lemma paths_determine_the_id_witness :
  log_paths (calls refuse (ProductServiceOp_Get 5 None) demo_products tt)
  = log_paths (calls refuse (ProductServiceOp_Get 5 (Some (B "fields=id")))
                     demo_products tt)
  /\ (5 = 5)%Z.
Proof.
  split; [reflexivity|].
  apply (proj1 (paths_determine_the_id refuse refuse tt tt 5 5)
               None (Some (B "fields=id")) demo_products demo_products).
  reflexivity.
Defined.

Lemma ListWithPagination_success_witness :
  outcome (spec_client plain_ok refuse)
          (ProductServiceOp_ListWithPagination None) demo_products tt
  = (None, Some empty_pagination, None).
Proof.
  apply (proj1 (ListWithPagination_success (spec_client plain_ok refuse)
                  tt tt None (Some empty_pagination))
               demo_products {| Products := None |}).
  reflexivity.
Defined.

Lemma matched_text_has_one_closing_bracket_witness :
  FindStringSubmatch linkRegex (example_header ++ B ", " ++ example_header)
  = None.
Proof.
  apply (proj2 matched_text_has_one_closing_bracket).
  - vm_compute. apply le_n.
  - vm_compute. apply le_n.
Defined.

Lemma submatches_by_cutting_witness :
  B "u" = fst (cut ">" (snd (cut "<" (link_entry 1 (B "u") (B "next") 2))))
  /\ B "next"
     = fst (cut dquote
                (skipn 7 (snd (cut ">" (snd (cut "<" (link_entry 1 (B "u")
                                                        (B "next") 2))))))).
Proof.
  apply (@submatches_by_cutting (link_entry 1 (B "u") (B "next") 2)
           (link_entry 1 (B "u") (B "next") 2) (B "u") (B "next")).
  reflexivity.
Defined.
